(** * yami: a Pratt-parser calculator, embedded from [main.cc]

    The program reads a line, tokenizes it ([Tokenizer::lex]), parses the
    tokens with an operator-precedence parser ([PrattParser]) and walks the
    tree ([Evaluator]).  Every class of [main.cc] is embedded below under its
    own name: objects are records, member functions take the object and
    return its next state, [double] is the kernel's binary64 [float], and the
    host's [strtod] is a parameter of the parser. *)

From Stdlib Require Import PrimFloat Uint63 Ascii String ZArith.
From Stdlib Require FloatAxioms SpecFloat.
From stdpp Require Import base decidable countable list strings gmap.

Local Open Scope Z_scope.

(** ** [class Erronable]

    [emitError] hands its [va_list] to [printf] (not [vprintf]), so the text
    that reaches the terminal is not determined by the program; what is
    modelled is the call itself: the flag it raises and the format and
    arguments the caller passed, one constructor per call site. *)

Inductive Diagnostic : Set :=
| UnexpectedCharacter (position : Z) (c : ascii)
| ExpectExpression (lexeme : string)
| ExpectNumberLiteral
| InvalidBinaryOperator
| InvalidUnaryOperator.

Module Erronable.
Record t : Set := Build {
  hadError_ : bool;
  emitted_ : list Diagnostic
}.

Definition new : t := {| hadError_ := false; emitted_ := [] |}.

Definition anErrorOccurred (e : t) : bool := hadError_ e.

Definition emitError (d : Diagnostic) (e : t) : t :=
  {| hadError_ := true; emitted_ := emitted_ e ++ [d] |}.
End Erronable.

(** ** Tokens *)

Module TokenType.
Inductive t : Set := number | minus | plus | slash | star | eof.

Definition to_nat (k : t) : nat :=
  match k with
  | number => 0 | minus => 1 | plus => 2 | slash => 3 | star => 4 | eof => 5
  end%nat.

Definition of_nat (n : nat) : t :=
  match n with
  | 0 => number | 1 => minus | 2 => plus | 3 => slash | 4 => star | _ => eof
  end%nat.

#[global] Instance eq_dec : EqDecision t.
Proof. solve_decision. Defined.

#[global] Instance countable : Countable t.
Proof. apply (inj_countable' to_nat of_nat). intros []; reflexivity. Defined.
End TokenType.

Record Token : Set := mkToken {
  type_ : TokenType.t;
  lexeme_ : string
}.

(** [uint32_t] arithmetic. *)
Definition uint32 (z : Z) : Z := z mod 2 ^ 32.

(** ** [class Tokenizer]

    An iterator into [source_] is its offset from [begin()]; [end] is the
    length.  [*it] at [end] reads the terminating NUL of the string; no
    iterator is dereferenced beyond it (lemma [lexNumber_spec]).
    [std::isspace] and [std::isdigit] are those of the C locale, false on
    every byte above 127. *)

Definition isspace (c : ascii) : bool :=
  let n := nat_of_ascii c in
  ((n =? 32) || ((9 <=? n) && (n <=? 13)))%nat.

Definition isdigit (c : ascii) : bool :=
  let n := nat_of_ascii c in
  ((48 <=? n) && (n <=? 57))%nat.

Module Tokenizer.
Record t : Set := Build {
  source_ : string;
  tokens_ : list Token;
  base : Erronable.t
}.

Definition new (source : string) : t :=
  {| source_ := source; tokens_ := []; base := Erronable.new |}.

Definition anErrorOccurred (tk : t) : bool :=
  Erronable.anErrorOccurred (base tk).

Definition emitError (d : Diagnostic) (tk : t) : t :=
  {| source_ := source_ tk;
     tokens_ := tokens_ tk;
     base := Erronable.emitError d (base tk) |}.

(** [tokens_.emplace_back(type, lexeme)] *)
Definition emplace_back (k : TokenType.t) (lexeme : string) (tk : t) : t :=
  {| source_ := source_ tk;
     tokens_ := tokens_ tk ++ [mkToken k lexeme];
     base := base tk |}.

Definition deref (src : list ascii) (it : nat) : ascii :=
  default zero (src !! it).

(** [std::string(first, last)] *)
Definition range (src : list ascii) (first last : nat) : string :=
  string_of_list_ascii (take (last - first) (drop first src)).

(** [while(std::isdigit( *it) && it < end) it++;] with the number of
    characters left as the bound on its iterations. *)
Fixpoint while_isdigit_loop (left : nat) (src : list ascii) (it : nat) : nat :=
  match left with
  | O => it
  | S left' =>
      if isdigit (deref src it) && (it <? length src)%nat
      then while_isdigit_loop left' src (S it)
      else it
  end.

Definition while_isdigit (src : list ascii) (it : nat) : nat :=
  while_isdigit_loop (length src - it) src it.

(** [lexNumber(it, end)]: the iterator it leaves behind. *)
Definition lexNumber (src : list ascii) (it : nat) : nat :=
  let it := while_isdigit src it in
  let it :=
    if Ascii.eqb (deref src it) "."
    then while_isdigit src (S it)
    else it in
  if negb (Ascii.eqb (deref src it) "e") then it
  else
    let it := S it in
    let it :=
      if Ascii.eqb (deref src it) "-" || Ascii.eqb (deref src it) "+"
      then S it
      else it in
    while_isdigit src it.

(** The [for] loop of [lex], from iterator [it].  Every iteration ends in
    the loop's own [it++], also the one that [continue]s after a number.
    [left] bounds the iterations still to run; when it reaches zero the
    iterator has reached [end] (lemma [lex_for_bound]). *)
Fixpoint lex_for (left : nat) (src : list ascii) (it : nat) (tk : t) : t :=
  match left with
  | O => emplace_back TokenType.eof (String zero EmptyString) tk
  | S left' =>
      if (it <? length src)%nat then
        let c := deref src it in
        if isspace c then lex_for left' src (S it) tk
        else if isdigit c then
          let start := it in
          let it := lexNumber src it in
          lex_for left' src (S it)
            (emplace_back TokenType.number (range src start it) tk)
        else if Ascii.eqb c "+" then
          lex_for left' src (S it)
            (emplace_back TokenType.plus (String c EmptyString) tk)
        else if Ascii.eqb c "-" then
          lex_for left' src (S it)
            (emplace_back TokenType.minus (String c EmptyString) tk)
        else if Ascii.eqb c "*" then
          lex_for left' src (S it)
            (emplace_back TokenType.star (String c EmptyString) tk)
        else if Ascii.eqb c "/" then
          lex_for left' src (S it)
            (emplace_back TokenType.slash (String c EmptyString) tk)
        else
          let position := uint32 (Z.of_nat it) in
          emitError (UnexpectedCharacter position c) tk
      else emplace_back TokenType.eof (String zero EmptyString) tk
  end.

(** [lex()]: the tokenizer after the call; it returns [tokens_]. *)
Definition lex (tk : t) : t :=
  let src := list_ascii_of_string (source_ tk) in
  lex_for (length src) src 0 tk.
End Tokenizer.

(** ** Expression trees

    An [Expr*] is either null or points to one of the three node classes. *)

Inductive Expr : Set :=
| nullptr
| BinaryExpr (op_ : TokenType.t) (left_ right_ : Expr)
| UnaryExpr (op_ : TokenType.t) (right_ : Expr)
| LiteralExpr (value_ : float).

(** [enum Precedence] *)
Definition NONE : Z := 0.
Definition TERM : Z := 1.
Definition FACTOR : Z := 2.
Definition UNARY : Z := 3.
Definition PRIMARY : Z := 4.

(** Pointers to the parser's member functions. *)
Inductive ParseFnInfix : Set := fn_binary.
Inductive ParseFnPrefix : Set := fn_unary | fn_primary.

Record ParseRule : Set := mkParseRule {
  precedence : Z;
  infix : option ParseFnInfix;
  prefix : option ParseFnPrefix
}.

(** What the parser's code can run into besides returning: an index outside
    [tokens_], or a call through a null member pointer. *)
Inductive Fault : Set :=
| OutOfRange (index : Z)
| NullMemberCall.

(** ** [class PrattParser] *)

Module PrattParser.

Record t : Set := Build {
  rules_ : gmap TokenType.t ParseRule;
  current_ : Z;
  tokens_ : list Token;
  base : Erronable.t
}.

(** A member function either returns a value and leaves the parser in a new
    state, or the process is lost to a [Fault]; [OutOfFuel] is the bound on
    the recursion depth of this embedding, not an outcome of the program. *)
Inductive Outcome (A : Type) : Type :=
| Returns (a : A) (p : t)
| Faults (f : Fault)
| OutOfFuel.
Arguments Returns {A} a p.
Arguments Faults {A} f.
Arguments OutOfFuel {A}.

Definition M (A : Type) : Type := t -> Outcome A.

Definition ret {A : Type} (a : A) : M A := fun p => Returns a p.

Definition bind {A B : Type} (m : M A) (k : A -> M B) : M B :=
  fun p =>
    match m p with
    | Returns a p' => k a p'
    | Faults f => Faults f
    | OutOfFuel => OutOfFuel
    end.

Notation "'let*' x ':=' m 'in' k" := (bind m (fun x => k))
  (at level 10, x name, m at level 100, k at level 200).

Definition fault {A : Type} (f : Fault) : M A := fun _ => Faults f.

Definition emitError (d : Diagnostic) : M unit :=
  fun p =>
    Returns tt {| rules_ := rules_ p; current_ := current_ p;
                  tokens_ := tokens_ p;
                  base := Erronable.emitError d (base p) |}.

Definition anErrorOccurred (p : t) : bool :=
  Erronable.anErrorOccurred (base p).

(** [tokens_[i]] for an unsigned index [i]; [std::vector::operator[]] does
    not check the range, so an index past the last token is a fault. *)
Definition at_index (i : Z) : M Token :=
  fun p =>
    if i <? Z.of_nat (length (tokens_ p)) then
      match tokens_ p !! Z.to_nat i with
      | Some token => Returns token p
      | None => Faults (OutOfRange i)
      end
    else Faults (OutOfRange i).

Definition peek : M Token :=
  fun p => at_index (current_ p) p.

Definition isAtEnd : M bool :=
  let* token := peek in
  ret (bool_decide (type_ token = TokenType.eof)).

Definition previous : M Token :=
  fun p => at_index (uint32 (current_ p - 1)) p.

Definition increment_current : M unit :=
  fun p =>
    Returns tt {| rules_ := rules_ p; current_ := uint32 (current_ p + 1);
                  tokens_ := tokens_ p; base := base p |}.

Definition advance : M Token :=
  let* at_end := isAtEnd in
  let* _ := (if negb at_end then increment_current else ret tt) in
  previous.

(** [rules_.insert(...)] keeps an entry that is already there. *)
Definition registerRule (type : TokenType.t) (prec : Z)
    (prefix : option ParseFnPrefix) (infix : option ParseFnInfix)
    (rules : gmap TokenType.t ParseRule) : gmap TokenType.t ParseRule :=
  match rules !! type with
  | Some _ => rules
  | None =>
      <[type := {| precedence := prec; infix := infix; prefix := prefix |}]> rules
  end.

Definition registerAllRules (rules : gmap TokenType.t ParseRule)
  : gmap TokenType.t ParseRule :=
  let rules := registerRule TokenType.plus TERM (Some fn_unary) (Some fn_binary) rules in
  let rules := registerRule TokenType.minus TERM (Some fn_unary) (Some fn_binary) rules in
  let rules := registerRule TokenType.star FACTOR None (Some fn_binary) rules in
  let rules := registerRule TokenType.slash FACTOR None (Some fn_binary) rules in
  let rules := registerRule TokenType.number PRIMARY (Some fn_primary) None rules in
  registerRule TokenType.eof NONE None None rules.

(** The constructor. *)
Definition new (tokens : list Token) : t :=
  {| rules_ := registerAllRules ∅; current_ := 0; tokens_ := tokens;
     base := Erronable.new |}.

(** [rules_[type]]: [operator[]] adds a value-initialised rule for a key
    that is not there. *)
Definition getRule (type : TokenType.t) : M ParseRule :=
  fun p =>
    match rules_ p !! type with
    | Some rule => Returns rule p
    | None =>
        let rule := {| precedence := NONE; infix := None; prefix := None |} in
        Returns rule {| rules_ := <[type := rule]> (rules_ p);
                        current_ := current_ p; tokens_ := tokens_ p;
                        base := base p |}
    end.

Section WithHost.

(** The host's [std::strtod(lexeme, nullptr)]. *)
Variable strtod : string -> float.

Definition primary : M Expr :=
  let* token := previous in
  if bool_decide (type_ token = TokenType.number)
  then ret (LiteralExpr (strtod (lexeme_ token)))
  else
    let* _ := emitError ExpectNumberLiteral in
    ret nullptr.

(** [unary] and [binary], given the function they call back. *)
Definition unary (parsePrecedence : Z -> M Expr) : M Expr :=
  let* op := previous in
  let* right := parsePrecedence UNARY in
  ret (UnaryExpr (type_ op) right).

Definition binary (parsePrecedence : Z -> M Expr) (left : Expr) : M Expr :=
  let* op := previous in
  let* rule := getRule (type_ op) in
  let* right := parsePrecedence (precedence rule + 1) in
  ret (BinaryExpr (type_ op) left right).

(** [(this->*prefixRule)()] and [(this->*infixRule)(expr)] *)
Definition call_prefix (fn : ParseFnPrefix) (parsePrecedence : Z -> M Expr)
  : M Expr :=
  match fn with
  | fn_unary => unary parsePrecedence
  | fn_primary => primary
  end.

Definition call_infix (fn : ParseFnInfix) (parsePrecedence : Z -> M Expr)
    (expr : Expr) : M Expr :=
  match fn with
  | fn_binary => binary parsePrecedence expr
  end.

(** [parsePrecedence] and its [while] loop.  [fuel] bounds the depth of the
    calls and the iterations. *)
Fixpoint parsePrecedence (fuel : nat) (prec : Z) {struct fuel} : M Expr :=
  match fuel with
  | O => fun _ => OutOfFuel
  | S fuel' =>
      let* token := advance in
      let* rule := getRule (type_ token) in
      match prefix rule with
      | None =>
          let* _ := emitError (ExpectExpression (lexeme_ token)) in
          ret nullptr
      | Some prefixRule =>
          let* expr := call_prefix prefixRule (parsePrecedence fuel') in
          while_infix fuel' prec expr
      end
  end
with while_infix (fuel : nat) (prec : Z) (expr : Expr) {struct fuel} : M Expr :=
  match fuel with
  | O => fun _ => OutOfFuel
  | S fuel' =>
      let* next := peek in
      let* next_rule := getRule (type_ next) in
      if prec <=? precedence next_rule then
        let* token := advance in
        let* rule := getRule (type_ token) in
        match infix rule with
        | None => fault NullMemberCall
        | Some infixRule =>
            let* expr := call_infix infixRule (parsePrecedence fuel') expr in
            while_infix fuel' prec expr
        end
      else ret expr
  end.

Definition expression (fuel : nat) : M Expr := parsePrecedence fuel TERM.

Definition parse (fuel : nat) : M Expr := expression fuel.

End WithHost.
End PrattParser.

(** ** [class Evaluator] *)

Module Evaluator.

Record t : Set := Build {
  ast_ : Expr;
  base : Erronable.t
}.

Definition new (ast : Expr) : t := {| ast_ := ast; base := Erronable.new |}.

Definition anErrorOccurred (ev : t) : bool :=
  Erronable.anErrorOccurred (base ev).

(** [evaluateExpression(expr)]: the value returned and the evaluator's
    [Erronable] part afterwards.  The left operand is evaluated first; the
    final [return NAN] is reached after each [emitError] and for a pointer
    that is none of the three classes, which here is the null pointer. *)
Fixpoint evaluateExpression (expr : Expr) (e : Erronable.t)
  : float * Erronable.t :=
  match expr with
  | BinaryExpr op l r =>
      let '(lhs, e) := evaluateExpression l e in
      let '(rhs, e) := evaluateExpression r e in
      match op with
      | TokenType.plus => (lhs + rhs, e)
      | TokenType.minus => (lhs - rhs, e)
      | TokenType.star => (lhs * rhs, e)
      | TokenType.slash => (lhs / rhs, e)
      | _ => (nan, Erronable.emitError InvalidBinaryOperator e)
      end%float
  | UnaryExpr op r =>
      let '(rhs, e) := evaluateExpression r e in
      match op with
      | TokenType.plus => (rhs, e)
      | TokenType.minus => (- rhs, e)
      | _ => (nan, Erronable.emitError InvalidUnaryOperator e)
      end%float
  | LiteralExpr value => (value, e)
  | nullptr => (nan, e)
  end.

Definition eval (ev : t) : float * t :=
  let '(value, e) := evaluateExpression (ast_ ev) (base ev) in
  (value, {| ast_ := ast_ ev; base := e |}).

End Evaluator.

(** ** One turn of [main]'s loop on a line other than [exit] *)

Inductive Turn : Type :=
| Printed (value : float) (evaluator : Evaluator.t)
| LexerError (tokenizer : Tokenizer.t)
| ParserError (parser : PrattParser.t)
| Crashed (f : Fault)
| Unfinished.

Definition main_turn (strtod : string -> float) (fuel : nat) (line : string)
  : Turn :=
  let tokenizer := Tokenizer.lex (Tokenizer.new line) in
  let tokens := Tokenizer.tokens_ tokenizer in
  if Tokenizer.anErrorOccurred tokenizer then LexerError tokenizer
  else
    match PrattParser.parse strtod fuel (PrattParser.new tokens) with
    | PrattParser.Returns ast parser =>
        if PrattParser.anErrorOccurred parser then ParserError parser
        else
          let '(value, evaluator) := Evaluator.eval (Evaluator.new ast) in
          Printed value evaluator
    | PrattParser.Faults f => Crashed f
    | PrattParser.OutOfFuel => Unfinished
    end.

(** * Vocabulary of the statements *)

(** ** Lexemes *)

(** The characters of [src] in [[first, last)]. *)
Definition segment (src : list ascii) (first last : nat) : list ascii :=
  take (last - first) (drop first src).

(** [digit*] and [digit+] *)
Definition digits (w : list ascii) : Prop := Forall (fun c => isdigit c = true) w.

Definition digits1 (w : list ascii) : Prop := w <> [] /\ digits w.

(** [('+'|'-')?] *)
Definition sign (w : list ascii) : Prop :=
  w = [] \/ w = ["+"%char] \/ w = ["-"%char].

(** [digit+ ('.' D)? ('e' ('+'|'-')? D)?] for a class [D] of digit runs. *)
Definition number_shape (D : list ascii -> Prop) (w : list ascii) : Prop :=
  exists int frac exp,
    w = int ++ frac ++ exp
    /\ digits1 int
    /\ (frac = [] \/ exists f, frac = "."%char :: f /\ D f)
    /\ (exp = [] \/ exists s e, exp = "e"%char :: s ++ e /\ sign s /\ D e).

(** The grammar of the specification:
    [digit+ ('.' digit+)? ('e' ('+'|'-')? digit+)?]. *)
Definition numeric_grammar (lexeme : string) : Prop :=
  number_shape digits1 (list_ascii_of_string lexeme).

(** What the scanner accepts:
    [digit+ ('.' digit* )? ('e' ('+'|'-')? digit* )?]. *)
Definition scanned_grammar (lexeme : string) : Prop :=
  number_shape digits (list_ascii_of_string lexeme).

(** What holds of every [number] token. *)
Definition number_tokens (Q : string -> Prop) (tokens : list Token) : Prop :=
  Forall (fun t => type_ t = TokenType.number -> Q (lexeme_ t)) tokens.

(** A sequence of digit characters. *)
Definition digit_sequence (d : string) : Prop :=
  digits (list_ascii_of_string d).

(** ** Trees and parser states *)

(** The operators the data model allows on a binary and on a unary node. *)
Definition binary_operator (k : TokenType.t) : bool :=
  match k with
  | TokenType.plus | TokenType.minus | TokenType.star | TokenType.slash => true
  | _ => false
  end.

Definition unary_operator (k : TokenType.t) : bool :=
  match k with
  | TokenType.plus | TokenType.minus => true
  | _ => false
  end.

(** Every node of [e] carries an operator of its kind. *)
Fixpoint operators_valid (e : Expr) : bool :=
  match e with
  | nullptr | LiteralExpr _ => true
  | UnaryExpr op r => unary_operator op && operators_valid r
  | BinaryExpr op l r =>
      binary_operator op && operators_valid l && operators_valid r
  end.

(** [e] is the null pointer or has it for a child somewhere. *)
Fixpoint has_null (e : Expr) : bool :=
  match e with
  | nullptr => true
  | LiteralExpr _ => false
  | UnaryExpr _ r => has_null r
  | BinaryExpr _ l r => has_null l || has_null r
  end.

(** The rule table as the specification prints it, row by row; lemma
    [registerAllRules_lookup] compares it with the map the constructor
    builds. *)
Definition rule_table (k : TokenType.t) : ParseRule :=
  match k with
  | TokenType.plus | TokenType.minus =>
      {| precedence := TERM; infix := Some fn_binary; prefix := Some fn_unary |}
  | TokenType.star | TokenType.slash =>
      {| precedence := FACTOR; infix := Some fn_binary; prefix := None |}
  | TokenType.number =>
      {| precedence := PRIMARY; infix := None; prefix := Some fn_primary |}
  | TokenType.eof =>
      {| precedence := NONE; infix := None; prefix := None |}
  end.

(** The parser still holds the table its constructor built. *)
Definition rules_registered (p : PrattParser.t) : Prop :=
  PrattParser.rules_ p = PrattParser.registerAllRules ∅.

(** The diagnostic of [parsePrecedence] for a missing prefix action. *)
Definition only_expect_expression (d : Diagnostic) : Prop :=
  exists lexeme, d = ExpectExpression lexeme.

(** [p'] is a later state of the parser [p]: same table and tokens, the
    error flag only ever raised, and every diagnostic added in between is
    an [ExpectExpression]. *)
Definition later_state (p p' : PrattParser.t) : Prop :=
  rules_registered p'
  /\ PrattParser.tokens_ p' = PrattParser.tokens_ p
  /\ (PrattParser.anErrorOccurred p = true ->
      PrattParser.anErrorOccurred p' = true)
  /\ exists ds,
      Erronable.emitted_ (PrattParser.base p') =
      Erronable.emitted_ (PrattParser.base p) ++ ds
      /\ Forall only_expect_expression ds.

(** [m1] is [m2] run with less fuel: it gives up or does the same. *)
Definition refines {A : Type} (m1 m2 : PrattParser.M A) : Prop :=
  forall p, m1 p = PrattParser.OutOfFuel \/ m1 p = m2 p.

(** [parse] returns the tree [e] and has flagged no error. *)
Definition parses_to (strtod : string -> float) (fuel : nat)
    (tokens : list Token) (e : Expr) : Prop :=
  match PrattParser.parse strtod fuel (PrattParser.new tokens) with
  | PrattParser.Returns e' p' =>
      e' = e /\ PrattParser.anErrorOccurred p' = false
  | _ => False
  end.

(** The arithmetic value of a tree whose nodes are all of the data model:
    no null child, [+ -] on unary and [+ - * /] on binary nodes. *)
Fixpoint value_of (e : Expr) : option float :=
  match e with
  | LiteralExpr v => Some v
  | UnaryExpr TokenType.plus r => value_of r
  | UnaryExpr TokenType.minus r => PrimFloat.opp <$> value_of r
  | BinaryExpr op l r =>
      match op, value_of l, value_of r with
      | TokenType.plus, Some a, Some b => Some (a + b)%float
      | TokenType.minus, Some a, Some b => Some (a - b)%float
      | TokenType.star, Some a, Some b => Some (a * b)%float
      | TokenType.slash, Some a, Some b => Some (a / b)%float
      | _, _, _ => None
      end
  | _ => None
  end.

(** ** Running the examples *)

(** A stand-in for the host's [strtod] on lexemes that are a short run of
    digits, where the value is exact. *)
Definition digit_value (c : ascii) : float :=
  PrimFloat.of_uint63 (Uint63.of_Z (Z.of_nat (nat_of_ascii c) - 48)).

Definition strtod_digits (lexeme : string) : float :=
  fold_left (fun acc c => (acc * 10 + digit_value c)%float)
    (list_ascii_of_string lexeme) 0%float.

Definition tok (k : TokenType.t) (lexeme : string) : Token := mkToken k lexeme.

Definition eof_token : Token := tok TokenType.eof (String zero EmptyString).

Definition tokens_of (line : string) : list Token :=
  Tokenizer.tokens_ (Tokenizer.lex (Tokenizer.new line)).

(** What the evaluator is left with after a turn that flagged nothing. *)
Definition quiet (ast : Expr) : Evaluator.t :=
  {| Evaluator.ast_ := ast;
     Evaluator.base := {| Erronable.hadError_ := false;
                          Erronable.emitted_ := [] |} |}.

(** [parse] returns the null pointer after one [ExpectExpression] naming
    [lexeme], its only diagnostic. *)
Definition parse_rejects (strtod : string -> float) (fuel : nat)
    (tokens : list Token) (lexeme : string) : Prop :=
  match PrattParser.parse strtod fuel (PrattParser.new tokens) with
  | PrattParser.Returns e p' =>
      e = nullptr
      /\ PrattParser.base p' =
         {| Erronable.hadError_ := true;
            Erronable.emitted_ := [ExpectExpression lexeme] |}
  | _ => False
  end.

(** The parser after [advance] on the tokens of the line [-]. *)
Definition after_minus : PrattParser.t :=
  {| PrattParser.rules_ := PrattParser.registerAllRules ∅;
     PrattParser.current_ := 1;
     PrattParser.tokens_ := [tok TokenType.minus "-"; eof_token];
     PrattParser.base := Erronable.new |}.

(** The tree of the line [-2 * 3]. *)
Definition minus_two_times_three : Expr :=
  BinaryExpr TokenType.star
    (UnaryExpr TokenType.minus (LiteralExpr 2)) (LiteralExpr 3).

(** * Vocabulary of the further properties *)

(** ** Scanning *)

(** One of the four operator characters. *)
Definition operator_char (c : ascii) : bool :=
  Ascii.eqb c "+" || Ascii.eqb c "-" || Ascii.eqb c "*" || Ascii.eqb c "/".

(** A character [lex] has no branch for. *)
Definition unexpected_char (c : ascii) : Prop :=
  isspace c = false /\ isdigit c = false /\ operator_char c = false.

Definition not_eof (t : Token) : Prop := type_ t <> TokenType.eof.

(** The lexeme [lex] gives a token of each kind but [number]. *)
Definition fixed_lexeme (k : TokenType.t) : option string :=
  match k with
  | TokenType.number => None
  | TokenType.plus => Some "+"%string
  | TokenType.minus => Some "-"%string
  | TokenType.star => Some "*"%string
  | TokenType.slash => Some "/"%string
  | TokenType.eof => Some (String zero EmptyString)
  end.

(** The kind of the token an operator character becomes. *)
Definition operator_kind (c : ascii) : option TokenType.t :=
  if Ascii.eqb c "+" then Some TokenType.plus
  else if Ascii.eqb c "-" then Some TokenType.minus
  else if Ascii.eqb c "*" then Some TokenType.star
  else if Ascii.eqb c "/" then Some TokenType.slash
  else None.

(** A character at which [lexNumber] goes on scanning. *)
Definition continues_number (c : ascii) : bool :=
  isdigit c || Ascii.eqb c "." || Ascii.eqb c "e".

(** The tokens and the error flag of a tokenizer. *)
Definition scanned (tk : Tokenizer.t) : list Token * bool :=
  (Tokenizer.tokens_ tk, Tokenizer.anErrorOccurred tk).

Definition scan (line : string) : list Token * bool :=
  scanned (Tokenizer.lex (Tokenizer.new line)).

(** The two optional parts of [lexNumber], from the iterator the integer
    part left. *)
Definition lexNumber_fraction (src : list ascii) (it : nat) : nat :=
  if Ascii.eqb (Tokenizer.deref src it) "."
  then Tokenizer.while_isdigit src (S it)
  else it.

Definition lexNumber_exponent (src : list ascii) (it : nat) : nat :=
  if negb (Ascii.eqb (Tokenizer.deref src it) "e") then it
  else
    let it := S it in
    let it :=
      if Ascii.eqb (Tokenizer.deref src it) "-"
         || Ascii.eqb (Tokenizer.deref src it) "+"
      then S it
      else it in
    Tokenizer.while_isdigit src it.

(** The character an iterator at the start of [l] reads. *)
Definition first_char (l : list ascii) : ascii := Tokenizer.deref l 0.

(** How [lex] on [src] has left the tokenizer [r], started from [tk]:
    either no error and the tokens it added end in the one [eof] token, or
    an error, no [eof] token, and one more call of [emitError], whose
    arguments were an unexpected character of [src] and its offset. *)
Definition lex_outcome (src : list ascii) (tk r : Tokenizer.t) : Prop :=
  if Tokenizer.anErrorOccurred r then
    (exists toks,
        Tokenizer.tokens_ r = Tokenizer.tokens_ tk ++ toks
        /\ Forall not_eof toks)
    /\ exists (pos : nat) (c : ascii),
        Erronable.emitted_ (Tokenizer.base r) =
        Erronable.emitted_ (Tokenizer.base tk)
          ++ [UnexpectedCharacter (uint32 (Z.of_nat pos)) c]
        /\ src !! pos = Some c /\ unexpected_char c
  else
    exists toks,
      Tokenizer.tokens_ r = Tokenizer.tokens_ tk ++ toks ++ [eof_token]
      /\ Forall not_eof toks
      /\ Erronable.emitted_ (Tokenizer.base r) =
         Erronable.emitted_ (Tokenizer.base tk).

(** The same in terms of what the caller of [lex] can see, the tokens and
    the flag: either the flag is clear and the tokens end in the one [eof]
    token, or the flag is raised, there is no [eof] token, and [src] holds
    an unexpected character. *)
Definition lex_ending (src : list ascii) (r : Tokenizer.t) : Prop :=
  if Tokenizer.anErrorOccurred r then
    Forall not_eof (Tokenizer.tokens_ r)
    /\ exists (pos : nat) (c : ascii), src !! pos = Some c /\ unexpected_char c
  else
    exists toks,
      Tokenizer.tokens_ r = toks ++ [eof_token] /\ Forall not_eof toks.

(** The lexeme of a token is the one fixed for its kind. *)
Definition lexeme_fixed (t : Token) : Prop :=
  forall l, fixed_lexeme (type_ t) = Some l -> lexeme_ t = l.

(** ** The cursor of the parser *)

(** The cursor [current_] of parser [p] over the tokens [T]: it has passed
    no [eof] token, an [eof] token lies at or after it, and when it is still
    at 0 the first token is no [eof]. *)
Definition cursor_ok (T : list Token) (p : PrattParser.t) : Prop :=
  rules_registered p
  /\ PrattParser.tokens_ p = T
  /\ exists c : nat,
      PrattParser.current_ p = Z.of_nat c
      /\ Forall not_eof (take c T)
      /\ (exists j t, (c <= j)%nat /\ T !! j = Some t /\ type_ t = TokenType.eof)
      /\ (c = 0%nat -> exists t, T !! 0%nat = Some t /\ not_eof t).

(** The same once a token has been consumed. *)
Definition cursor_in (T : list Token) (p : PrattParser.t) : Prop :=
  cursor_ok T p /\ 1 <= PrattParser.current_ p.

(** [o] is no out-of-range access, and a state it returns satisfies [P]. *)
Definition in_range {A : Type} (P : PrattParser.t -> Prop)
    (o : PrattParser.Outcome A) : Prop :=
  match o with
  | PrattParser.Returns _ p' => P p'
  | PrattParser.Faults (OutOfRange _) => False
  | _ => True
  end.

(** ** The grammar the parser accepts *)

(** An operand: prefix operators, then a number literal. *)
Record Operand : Set := mkOperand {
  signs : list TokenType.t;
  literal : string
}.

(** A product: operands joined by [*] and [/]; a sum: products joined by
    [+] and [-]. *)
Definition Product : Set := Operand * list (TokenType.t * Operand).
Definition Sum : Set := Product * list (TokenType.t * Product).

Definition multiplicative (k : TokenType.t) : bool :=
  match k with TokenType.star | TokenType.slash => true | _ => false end.

Definition additive (k : TokenType.t) : bool :=
  match k with TokenType.plus | TokenType.minus => true | _ => false end.

(** Well-formed operands, products and sums, with literals in [L]. *)
Definition operand_ok (L : string -> Prop) (o : Operand) : Prop :=
  Forall (fun k => additive k = true) (signs o) /\ L (literal o).

Definition product_ok (L : string -> Prop) (p : Product) : Prop :=
  operand_ok L p.1
  /\ Forall (fun ko => multiplicative ko.1 = true /\ operand_ok L ko.2) p.2.

Definition sum_ok (L : string -> Prop) (s : Sum) : Prop :=
  product_ok L s.1
  /\ Forall (fun kp => additive kp.1 = true /\ product_ok L kp.2) s.2.

(** The token [lex] makes of an operator character. *)
Definition operator_token (k : TokenType.t) : Token :=
  match k with
  | TokenType.plus => mkToken k "+"
  | TokenType.minus => mkToken k "-"
  | TokenType.star => mkToken k "*"
  | TokenType.slash => mkToken k "/"
  | _ => mkToken k EmptyString
  end.

Definition operand_tokens (o : Operand) : list Token :=
  (operator_token <$> signs o) ++ [mkToken TokenType.number (literal o)].

Definition product_tokens (p : Product) : list Token :=
  operand_tokens p.1
  ++ flat_map (fun ko => operator_token ko.1 :: operand_tokens ko.2) p.2.

Definition sum_tokens (s : Sum) : list Token :=
  product_tokens s.1
  ++ flat_map (fun kp => operator_token kp.1 :: product_tokens kp.2) s.2.

Section Trees.

Variable strtod : string -> float.

(** The trees of the grammar: prefix operators nest to the right, binary
    operators of one level group to the left. *)
Definition operand_tree (o : Operand) : Expr :=
  foldr UnaryExpr (LiteralExpr (strtod (literal o))) (signs o).

Definition product_tree (p : Product) : Expr :=
  fold_left (fun acc ko => BinaryExpr ko.1 acc (operand_tree ko.2))
    p.2 (operand_tree p.1).

Definition sum_tree (s : Sum) : Expr :=
  fold_left (fun acc kp => BinaryExpr kp.1 acc (product_tree kp.2))
    s.2 (product_tree s.1).

End Trees.

(** The parser built by the constructor on [T], with its cursor at [c]. *)
Definition parser_at (T : list Token) (c : nat) : PrattParser.t :=
  {| PrattParser.rules_ := PrattParser.registerAllRules ∅;
     PrattParser.current_ := Z.of_nat c;
     PrattParser.tokens_ := T;
     PrattParser.base := Erronable.new |}.

(** With enough fuel, [parsePrecedence prec] from cursor [c] returns [e]
    with the cursor at [c'] and no error flagged; likewise its loop. *)
Definition parses (strtod : string -> float) (T : list Token)
    (prec : Z) (c : nat) (e : Expr) (c' : nat) : Prop :=
  exists n, forall fuel, (n <= fuel)%nat ->
    PrattParser.parsePrecedence strtod fuel prec (parser_at T c) =
    PrattParser.Returns e (parser_at T c').

Definition loops (strtod : string -> float) (T : list Token)
    (prec : Z) (acc : Expr) (c : nat) (e : Expr) (c' : nat) : Prop :=
  exists n, forall fuel, (n <= fuel)%nat ->
    PrattParser.while_infix strtod fuel prec acc (parser_at T c) =
    PrattParser.Returns e (parser_at T c').

(** [l] starts with a token whose precedence is below [prec]. *)
Definition starts_below (prec : Z) (l : list Token) : Prop :=
  exists t l', l = t :: l' /\ precedence (rule_table (type_ t)) < prec.

(** ** Writing a sum as a line *)

Definition operator_char_of (k : TokenType.t) : ascii :=
  match k with
  | TokenType.plus => "+"
  | TokenType.minus => "-"
  | TokenType.star => "*"
  | TokenType.slash => "/"
  | _ => " "
  end.

(** Every token is followed by one blank. *)
Definition write_operator (k : TokenType.t) (line : string) : string :=
  String (operator_char_of k) (String " " line).

Definition write_operand (o : Operand) (line : string) : string :=
  foldr write_operator (String.append (literal o) (String " " line)) (signs o).

Definition write_product (p : Product) (line : string) : string :=
  write_operand p.1
    (foldr (fun ko rest => write_operator ko.1 (write_operand ko.2 rest)) line p.2).

Definition write_sum (s : Sum) (line : string) : string :=
  write_product s.1
    (foldr (fun kp rest => write_operator kp.1 (write_product kp.2 rest)) line s.2).

(** The value of a sum, by the arithmetic of [double]. *)
Definition apply_unary (k : TokenType.t) (v : float) : float :=
  match k with TokenType.minus => (- v)%float | _ => v end.

Definition apply_binary (k : TokenType.t) (a b : float) : float :=
  match k with
  | TokenType.plus => (a + b)%float
  | TokenType.minus => (a - b)%float
  | TokenType.star => (a * b)%float
  | _ => (a / b)%float
  end.

Definition operand_value (strtod : string -> float) (o : Operand) : float :=
  foldr apply_unary (strtod (literal o)) (signs o).

Definition product_value (strtod : string -> float) (p : Product) : float :=
  fold_left (fun acc ko => apply_binary ko.1 acc (operand_value strtod ko.2))
    p.2 (operand_value strtod p.1).

Definition sum_value (strtod : string -> float) (s : Sum) : float :=
  fold_left (fun acc kp => apply_binary kp.1 acc (product_value strtod kp.2))
    s.2 (product_value strtod s.1).

(** The tokens of a number followed by an operator. *)
Definition dangling_tokens (w : string) (k : TokenType.t) : list Token :=
  [tok TokenType.number w; operator_token k; eof_token].

(** The line of a number, a blank and an operator character. *)
Definition dangling_line (w : string) (k : TokenType.t) : string :=
  String.append w (String " " (String (operator_char_of k) EmptyString)).

(** The sum [- 2 * 3 + 4 / 8]. *)
Definition sample_sum : Sum :=
  ((mkOperand [TokenType.minus] "2", [(TokenType.star, mkOperand [] "3")]),
   [(TokenType.plus, (mkOperand [] "4", [(TokenType.slash, mkOperand [] "8")]))]).

(** * Facts about the tokenizer *)

Section TokenizerFacts.
Local Open Scope nat_scope.

Implicit Types (src : list ascii) (it : nat).

Lemma deref_ge src it : length src <= it -> Tokenizer.deref src it = zero.
Proof.
  intros H. unfold Tokenizer.deref. rewrite lookup_ge_None_2 by exact H. reflexivity.
Qed.

Lemma deref_lt src it : it < length src -> src !! it = Some (Tokenizer.deref src it).
Proof.
  intros H. unfold Tokenizer.deref.
  destruct (lookup_lt_is_Some_2 src it H) as [c ->]. reflexivity.
Qed.

Lemma deref_nonzero src it c :
  Tokenizer.deref src it = c -> c <> zero -> it < length src.
Proof.
  intros <- Hc. destruct (decide (it < length src)) as [| Hge]; [assumption |].
  exfalso. apply Hc, deref_ge. lia.
Qed.

Lemma isdigit_in_range src it :
  isdigit (Tokenizer.deref src it) = true -> it < length src.
Proof.
  intros H. eapply deref_nonzero; [reflexivity |]. intros Hz. rewrite Hz in H.
  discriminate.
Qed.

Lemma segment_nil src it : segment src it it = [].
Proof. unfold segment. rewrite Nat.sub_diag. reflexivity. Qed.

Lemma segment_cons src a b :
  a < length src -> a < b ->
  segment src a b = Tokenizer.deref src a :: segment src (S a) b.
Proof.
  intros Ha Hab. unfold segment.
  replace (b - a) with (S (b - S a)) by lia.
  rewrite (drop_S _ _ _ (deref_lt _ _ Ha)). reflexivity.
Qed.

Lemma segment_app src a b c :
  a <= b -> b <= c -> segment src a c = segment src a b ++ segment src b c.
Proof.
  intros Hab Hbc. unfold segment.
  replace (drop b src) with (drop (b - a) (drop a src))
    by (rewrite drop_drop; f_equal; lia).
  rewrite take_take_drop. f_equal. lia.
Qed.

Lemma range_segment src a b :
  Tokenizer.range src a b = string_of_list_ascii (segment src a b).
Proof. reflexivity. Qed.

(** ** The digit loop *)

Lemma while_isdigit_loop_spec k src it :
  let r := Tokenizer.while_isdigit_loop k src it in
  it <= r /\ (it <= length src -> r <= length src) /\ digits (segment src it r).
Proof.
  revert it. induction k as [| k IH]; intros it; simpl.
  - rewrite segment_nil. repeat split; auto. constructor.
  - destruct (isdigit (Tokenizer.deref src it) && (it <? length src)) eqn:Hc.
    + apply andb_true_iff in Hc as [Hd Hlt]. apply Nat.ltb_lt in Hlt.
      destruct (IH (S it)) as (Hle & Hin & Hds).
      split; [lia |]. split; [intros _; apply Hin; lia |].
      rewrite segment_cons by lia. constructor; assumption.
    + rewrite segment_nil. repeat split; auto. constructor.
Qed.

Lemma while_isdigit_spec src it :
  let r := Tokenizer.while_isdigit src it in
  it <= r /\ (it <= length src -> r <= length src) /\ digits (segment src it r).
Proof. apply while_isdigit_loop_spec. Qed.

Lemma while_isdigit_first src it :
  isdigit (Tokenizer.deref src it) = true ->
  Tokenizer.while_isdigit src it = Tokenizer.while_isdigit src (S it).
Proof.
  intros Hd. pose proof (isdigit_in_range _ _ Hd) as Hlt.
  unfold Tokenizer.while_isdigit.
  replace (length src - it) with (S (length src - S it)) by lia.
  simpl. rewrite Hd. rewrite (proj2 (Nat.ltb_lt _ _) Hlt). reflexivity.
Qed.

Lemma while_isdigit_all src it :
  it <= length src -> digits (drop it src) ->
  Tokenizer.while_isdigit src it = length src.
Proof.
  intros Hle Hds. remember (length src - it) as k eqn:Hk.
  revert it Hle Hds Hk. induction k as [| k IH]; intros it Hle Hds Hk.
  - unfold Tokenizer.while_isdigit. rewrite <- Hk. simpl. lia.
  - assert (Hlt : it < length src) by lia.
    rewrite (drop_S _ _ _ (deref_lt _ _ Hlt)) in Hds.
    inversion Hds as [| c rest Hc Hrest]; subst.
    rewrite while_isdigit_first by assumption.
    apply IH; [lia | assumption | lia].
Qed.

(** ** [lexNumber] *)

Lemma lexNumber_spec src it :
  isdigit (Tokenizer.deref src it) = true ->
  let r := Tokenizer.lexNumber src it in
  it < r /\ r <= length src /\ number_shape digits (segment src it r).
Proof.
  intros Hd. pose proof (isdigit_in_range _ _ Hd) as Hlt.
  unfold Tokenizer.lexNumber.
  (* the integer part *)
  destruct (while_isdigit_spec src (S it)) as (H1a & H1b & H1c).
  rewrite (while_isdigit_first _ _ Hd).
  set (i1 := Tokenizer.while_isdigit src (S it)) in *.
  assert (Hint : digits1 (segment src it i1)).
  { rewrite segment_cons by lia. split; [discriminate | constructor; assumption]. }
  (* the fraction *)
  set (i2 := if Ascii.eqb (Tokenizer.deref src i1) "." then
               Tokenizer.while_isdigit src (S i1) else i1).
  assert (Hfrac : i1 <= i2 /\ i2 <= length src
                  /\ (segment src i1 i2 = []
                      \/ exists f, segment src i1 i2 = "."%char :: f /\ digits f)).
  { subst i2. destruct (Ascii.eqb_spec (Tokenizer.deref src i1) ".") as [Hdot | _].
    - assert (i1 < length src) by (eapply deref_nonzero; [exact Hdot | discriminate]).
      destruct (while_isdigit_spec src (S i1)) as (Ha & Hb & Hc).
      split; [lia |]. split; [apply Hb; lia |]. right.
      rewrite segment_cons, Hdot by lia. eauto.
    - rewrite segment_nil. split; [lia |]. split; [lia | auto]. }
  destruct Hfrac as (H2a & H2b & Hfrac).
  (* the exponent *)
  destruct (Ascii.eqb_spec (Tokenizer.deref src i2) "e") as [He | _]; simpl.
  2: { split; [lia |]. split; [lia |].
       exists (segment src it i1), (segment src i1 i2), [].
       rewrite app_nil_r. split; [apply segment_app; lia |]. auto. }
  assert (H2c : i2 < length src) by (eapply deref_nonzero; [exact He | discriminate]).
  set (i4 := if Ascii.eqb (Tokenizer.deref src (S i2)) "-"
                || Ascii.eqb (Tokenizer.deref src (S i2)) "+"
             then S (S i2) else S i2).
  assert (Hsign : S i2 <= i4 /\ i4 <= length src /\ sign (segment src (S i2) i4)).
  { subst i4.
    destruct (Ascii.eqb_spec (Tokenizer.deref src (S i2)) "-") as [Hm | _]; simpl.
    { assert (S i2 < length src) by (eapply deref_nonzero; [exact Hm | discriminate]).
      split; [lia |]. split; [lia |].
      rewrite segment_cons, segment_nil, Hm by lia. right; right; reflexivity. }
    destruct (Ascii.eqb_spec (Tokenizer.deref src (S i2)) "+") as [Hp | _].
    { assert (S i2 < length src) by (eapply deref_nonzero; [exact Hp | discriminate]).
      split; [lia |]. split; [lia |].
      rewrite segment_cons, segment_nil, Hp by lia. right; left; reflexivity. }
    rewrite segment_nil. split; [lia |]. split; [lia | left; reflexivity]. }
  destruct Hsign as (H4a & H4b & Hsign).
  destruct (while_isdigit_spec src i4) as (H5a & H5b & H5c).
  set (r := Tokenizer.while_isdigit src i4) in *.
  split; [lia |]. split; [apply H5b; lia |].
  exists (segment src it i1), (segment src i1 i2), (segment src i2 r).
  split; [rewrite <- segment_app by lia; apply segment_app; lia |].
  split; [assumption |]. split; [assumption |]. right.
  exists (segment src (S i2) i4), (segment src i4 r).
  split; [| auto].
  rewrite segment_cons, He by lia. f_equal. apply segment_app; lia.
Qed.


(** ** The scanning loop *)

Lemma lex_for_S k src it tk :
  Tokenizer.lex_for (S k) src it tk =
  if it <? length src then
    let c := Tokenizer.deref src it in
    if isspace c then Tokenizer.lex_for k src (S it) tk
    else if isdigit c then
      Tokenizer.lex_for k src (S (Tokenizer.lexNumber src it))
        (Tokenizer.emplace_back TokenType.number
           (Tokenizer.range src it (Tokenizer.lexNumber src it)) tk)
    else if Ascii.eqb c "+" then
      Tokenizer.lex_for k src (S it)
        (Tokenizer.emplace_back TokenType.plus (String c EmptyString) tk)
    else if Ascii.eqb c "-" then
      Tokenizer.lex_for k src (S it)
        (Tokenizer.emplace_back TokenType.minus (String c EmptyString) tk)
    else if Ascii.eqb c "*" then
      Tokenizer.lex_for k src (S it)
        (Tokenizer.emplace_back TokenType.star (String c EmptyString) tk)
    else if Ascii.eqb c "/" then
      Tokenizer.lex_for k src (S it)
        (Tokenizer.emplace_back TokenType.slash (String c EmptyString) tk)
    else
      Tokenizer.emitError
        (UnexpectedCharacter (uint32 (Z.of_nat it)) c) tk
  else Tokenizer.emplace_back TokenType.eof (String zero EmptyString) tk.
Proof. reflexivity. Qed.

Lemma lex_for_at_end k src it tk :
  length src <= it ->
  Tokenizer.lex_for k src it tk =
  Tokenizer.emplace_back TokenType.eof (String zero EmptyString) tk.
Proof.
  intros Hle. destruct k; [reflexivity |]. rewrite lex_for_S.
  rewrite (proj2 (Nat.ltb_ge _ _) Hle). reflexivity.
Qed.

(** The bound on the iterations is not part of the result: any bound that
    covers the characters left gives the same tokenizer. *)
Lemma lex_for_bound k1 k2 src it tk :
  length src - it <= k1 -> length src - it <= k2 ->
  Tokenizer.lex_for k1 src it tk = Tokenizer.lex_for k2 src it tk.
Proof.
  revert k2 it tk. induction k1 as [| k1 IH]; intros k2 it tk H1 H2.
  - rewrite !lex_for_at_end by lia. reflexivity.
  - destruct k2 as [| k2]; [rewrite !lex_for_at_end by lia; reflexivity |].
    rewrite !lex_for_S. destruct (it <? length src) eqn:Hlt; [| reflexivity].
    apply Nat.ltb_lt in Hlt. cbv zeta.
    destruct (isspace _); [apply IH; lia |].
    destruct (isdigit _) eqn:Hd.
    { destruct (lexNumber_spec src it Hd) as (Hgt & _). apply IH; lia. }
    repeat (destruct (Ascii.eqb _ _); [apply IH; lia |]). reflexivity.
Qed.

Lemma number_tokens_snoc Q tokens t :
  number_tokens Q tokens -> (type_ t = TokenType.number -> Q (lexeme_ t)) ->
  number_tokens Q (tokens ++ [t]).
Proof. intros H Ht. apply Forall_app. split; [exact H | constructor; auto]. Qed.

Lemma lex_for_number_tokens k src it tk :
  number_tokens scanned_grammar (Tokenizer.tokens_ tk) ->
  number_tokens scanned_grammar (Tokenizer.tokens_ (Tokenizer.lex_for k src it tk)).
Proof.
  revert it tk. induction k as [| k IH]; intros it tk Htk.
  - simpl. apply number_tokens_snoc; [assumption | discriminate].
  - rewrite lex_for_S. destruct (it <? length src).
    2: { simpl. apply number_tokens_snoc; [assumption | discriminate]. }
    cbv zeta. destruct (isspace _); [apply IH; assumption |].
    destruct (isdigit _) eqn:Hd.
    { apply IH. simpl. apply number_tokens_snoc; [assumption |]. intros _.
      simpl. unfold scanned_grammar.
      rewrite range_segment, list_ascii_of_string_of_list_ascii.
      apply (lexNumber_spec src it Hd). }
    repeat (destruct (Ascii.eqb _ _);
            [apply IH; simpl; apply number_tokens_snoc; [assumption | discriminate] |]).
    exact Htk.
Qed.

Lemma isdigit_not_isspace c : isdigit c = true -> isspace c = false.
Proof.
  unfold isdigit, isspace. intros H.
  apply andb_true_iff in H as [H1 H2]. apply Nat.leb_le in H1, H2.
  apply orb_false_iff. split.
  - apply Nat.eqb_neq. lia.
  - apply andb_false_iff. right. apply Nat.leb_gt. lia.
Qed.

Lemma lexNumber_digits src :
  digits src -> Tokenizer.lexNumber src 0 = length src.
Proof.
  intros Hds. unfold Tokenizer.lexNumber.
  rewrite (while_isdigit_all src 0) by (rewrite ?drop_0; first [lia | assumption]).
  rewrite (deref_ge src (length src)) by lia.
  change (Ascii.eqb zero ".") with false. cbv iota.
  rewrite (deref_ge src (length src)) by lia. reflexivity.
Qed.

Lemma lex_for_digits src tk :
  src <> [] -> digits src ->
  Tokenizer.lex_for (length src) src 0 tk =
  Tokenizer.emplace_back TokenType.eof (String zero EmptyString)
    (Tokenizer.emplace_back TokenType.number (string_of_list_ascii src) tk).
Proof.
  intros Hne Hds. destruct (length src) as [| k] eqn:Hlen.
  { destruct src; [congruence | discriminate]. }
  rewrite lex_for_S, Hlen. change (0 <? S k) with true. cbv iota zeta.
  assert (Hc : isdigit (Tokenizer.deref src 0) = true).
  { destruct Hds; [congruence | assumption]. }
  rewrite (isdigit_not_isspace _ Hc), Hc, lexNumber_digits by assumption.
  rewrite lex_for_at_end by lia.
  unfold Tokenizer.range. rewrite drop_0, Nat.sub_0_r, firstn_all. reflexivity.
Qed.

(** A non-empty run of digits is one [number] token, then [eof]. *)
Lemma lex_digit_sequence d :
  d <> EmptyString -> digit_sequence d ->
  Tokenizer.lex (Tokenizer.new d) =
  {| Tokenizer.source_ := d;
     Tokenizer.tokens_ :=
       [mkToken TokenType.number d;
        mkToken TokenType.eof (String zero EmptyString)];
     Tokenizer.base := Erronable.new |}.
Proof.
  intros Hne Hds. unfold Tokenizer.lex. cbn [Tokenizer.source_ Tokenizer.new].
  rewrite lex_for_digits; [| | exact Hds].
  - unfold Tokenizer.emplace_back. simpl.
    rewrite string_of_list_ascii_of_string. reflexivity.
  - destruct d; [congruence | discriminate].
Qed.

End TokenizerFacts.

(** * Facts about the parser *)

Section ParserFacts.

Variable strtod : string -> float.

Local Abbreviation M := PrattParser.M.
Local Abbreviation Returns := PrattParser.Returns.
Local Abbreviation Faults := PrattParser.Faults.
Local Abbreviation OutOfFuel := PrattParser.OutOfFuel.
Local Abbreviation parsePrecedence := (PrattParser.parsePrecedence strtod).
Local Abbreviation while_infix := (PrattParser.while_infix strtod).

(** ** More fuel never changes an outcome *)

Lemma refines_refl {A : Type} (m : M A) : refines m m.
Proof. intros p. right. reflexivity. Qed.

Lemma refines_bind {A B : Type} (m1 m2 : M A) (k1 k2 : A -> M B) :
  refines m1 m2 -> (forall a, refines (k1 a) (k2 a)) ->
  refines (PrattParser.bind m1 k1) (PrattParser.bind m2 k2).
Proof.
  intros Hm Hk p. unfold PrattParser.bind.
  destruct (Hm p) as [-> | ->]; [left; reflexivity |].
  destruct (m2 p) as [a p' | f |]; [apply Hk | right; reflexivity ..].
Qed.

Lemma parsePrecedence_S fuel prec :
  parsePrecedence (S fuel) prec =
  PrattParser.bind PrattParser.advance (fun token =>
  PrattParser.bind (PrattParser.getRule (type_ token)) (fun rule =>
  match prefix rule with
  | None =>
      PrattParser.bind
        (PrattParser.emitError (ExpectExpression (lexeme_ token)))
        (fun _ => PrattParser.ret nullptr)
  | Some prefixRule =>
      PrattParser.bind
        (PrattParser.call_prefix strtod prefixRule (parsePrecedence fuel))
        (fun expr => while_infix fuel prec expr)
  end)).
Proof. reflexivity. Qed.

Lemma while_infix_S fuel prec expr :
  while_infix (S fuel) prec expr =
  PrattParser.bind PrattParser.peek (fun next =>
  PrattParser.bind (PrattParser.getRule (type_ next)) (fun next_rule =>
  if prec <=? precedence next_rule then
    PrattParser.bind PrattParser.advance (fun token =>
    PrattParser.bind (PrattParser.getRule (type_ token)) (fun rule =>
    match infix rule with
    | None => PrattParser.fault NullMemberCall
    | Some infixRule =>
        PrattParser.bind
          (PrattParser.call_infix infixRule (parsePrecedence fuel) expr)
          (fun expr' => while_infix fuel prec expr')
    end))
  else PrattParser.ret expr)).
Proof. reflexivity. Qed.

Lemma call_prefix_refines fn (f g : Z -> M Expr) :
  (forall prec, refines (f prec) (g prec)) ->
  refines (PrattParser.call_prefix strtod fn f)
          (PrattParser.call_prefix strtod fn g).
Proof.
  intros Hfg. destruct fn; simpl; [| apply refines_refl].
  unfold PrattParser.unary.
  apply refines_bind; [apply refines_refl | intros op].
  apply refines_bind; [apply Hfg | intros right; apply refines_refl].
Qed.

Lemma call_infix_refines fn (f g : Z -> M Expr) expr :
  (forall prec, refines (f prec) (g prec)) ->
  refines (PrattParser.call_infix fn f expr) (PrattParser.call_infix fn g expr).
Proof.
  intros Hfg. destruct fn; simpl. unfold PrattParser.binary.
  apply refines_bind; [apply refines_refl | intros op].
  apply refines_bind; [apply refines_refl | intros rule].
  apply refines_bind; [apply Hfg | intros right; apply refines_refl].
Qed.

Lemma fuel_step fuel :
  (forall prec, refines (parsePrecedence fuel prec) (parsePrecedence (S fuel) prec))
  /\ (forall prec expr,
        refines (while_infix fuel prec expr) (while_infix (S fuel) prec expr)).
Proof.
  induction fuel as [| fuel [IHp IHw]].
  - split; intros; intros p; left; reflexivity.
  - split.
    + intros prec. rewrite (parsePrecedence_S (S fuel)), (parsePrecedence_S fuel).
      apply refines_bind; [apply refines_refl | intros token].
      apply refines_bind; [apply refines_refl | intros rule].
      destruct (prefix rule) as [fn |]; [| apply refines_refl].
      apply refines_bind; [apply call_prefix_refines, IHp | intros expr; apply IHw].
    + intros prec expr. rewrite (while_infix_S (S fuel)), (while_infix_S fuel).
      apply refines_bind; [apply refines_refl | intros next].
      apply refines_bind; [apply refines_refl | intros next_rule].
      destruct (prec <=? precedence next_rule); [| apply refines_refl].
      apply refines_bind; [apply refines_refl | intros token].
      apply refines_bind; [apply refines_refl | intros rule].
      destruct (infix rule) as [fn |]; [| apply refines_refl].
      apply refines_bind; [apply call_infix_refines, IHp | intros expr'; apply IHw].
Qed.

Lemma parsePrecedence_more_fuel fuel fuel' prec p :
  (fuel <= fuel')%nat ->
  parsePrecedence fuel prec p <> OutOfFuel ->
  parsePrecedence fuel' prec p = parsePrecedence fuel prec p.
Proof.
  intros Hle Hnot. induction Hle as [| m Hle IH]; [reflexivity |].
  destruct (proj1 (fuel_step m) prec p) as [Hout | Heq]; congruence.
Qed.


(** ** What each member function leaves behind *)

Lemma bind_Returns {A B : Type} (m : M A) (k : A -> M B) p b p'' :
  PrattParser.bind m k p = Returns b p'' ->
  exists a p', m p = Returns a p' /\ k a p' = Returns b p''.
Proof.
  unfold PrattParser.bind. destruct (m p) as [a p' | f |]; [eauto | discriminate ..].
Qed.

Lemma registerAllRules_lookup k :
  PrattParser.registerAllRules ∅ !! k = Some (rule_table k).
Proof. destruct k; vm_compute; reflexivity. Qed.

Lemma getRule_registered k p :
  rules_registered p -> PrattParser.getRule k p = Returns (rule_table k) p.
Proof.
  unfold rules_registered, PrattParser.getRule. intros ->.
  rewrite registerAllRules_lookup. reflexivity.
Qed.

Lemma bind_getRule {B : Type} k (f : ParseRule -> M B) p :
  rules_registered p ->
  PrattParser.bind (PrattParser.getRule k) f p = f (rule_table k) p.
Proof.
  intros Hr. unfold PrattParser.bind. rewrite getRule_registered by assumption.
  reflexivity.
Qed.

Lemma bind_previous {B : Type} (f : Token -> M B) p token :
  PrattParser.previous p = Returns token p ->
  PrattParser.bind PrattParser.previous f p = f token p.
Proof. intros H. unfold PrattParser.bind. rewrite H. reflexivity. Qed.

Lemma at_index_Returns i p token p' :
  PrattParser.at_index i p = Returns token p' -> p' = p.
Proof.
  unfold PrattParser.at_index.
  destruct (i <? _); [| discriminate].
  destruct (_ !! _); [| discriminate]. congruence.
Qed.

Lemma peek_Returns p token p' :
  PrattParser.peek p = Returns token p' -> p' = p.
Proof. apply at_index_Returns. Qed.

Lemma previous_Returns p token p' :
  PrattParser.previous p = Returns token p' -> p' = p.
Proof. apply at_index_Returns. Qed.

Lemma advance_Returns p token p' :
  PrattParser.advance p = Returns token p' ->
  PrattParser.rules_ p' = PrattParser.rules_ p
  /\ PrattParser.base p' = PrattParser.base p
  /\ PrattParser.tokens_ p' = PrattParser.tokens_ p
  /\ PrattParser.previous p' = Returns token p'.
Proof.
  unfold PrattParser.advance, PrattParser.isAtEnd. intros H.
  apply bind_Returns in H as (at_end & p1 & H1 & H).
  apply bind_Returns in H1 as (next & p0 & Hpeek & Hret).
  apply peek_Returns in Hpeek as ->. injection Hret as <- <-.
  apply bind_Returns in H as ([] & p2 & Hinc & Hprev).
  pose proof (previous_Returns _ _ _ Hprev) as ->.
  destruct (negb _); injection Hinc as <-; auto.
Qed.

Lemma later_state_refl p : rules_registered p -> later_state p p.
Proof.
  intros Hr. repeat split; auto. exists []. rewrite app_nil_r. auto.
Qed.

Lemma later_state_trans p1 p2 p3 :
  later_state p1 p2 -> later_state p2 p3 -> later_state p1 p3.
Proof.
  intros (_ & Ht1 & He1 & ds1 & Hd1 & Hf1) (Hr & Ht2 & He2 & ds2 & Hd2 & Hf2).
  repeat split; [assumption | congruence | auto |].
  exists (ds1 ++ ds2). split; [| apply Forall_app; auto].
  rewrite Hd2, Hd1, app_assoc. reflexivity.
Qed.

Lemma later_state_advance p token p' :
  rules_registered p -> PrattParser.advance p = Returns token p' ->
  later_state p p' /\ PrattParser.previous p' = Returns token p'.
Proof.
  intros Hr H. apply advance_Returns in H as (Hrules & Hbase & Htok & Hprev).
  split; [| assumption]. unfold later_state, rules_registered, PrattParser.anErrorOccurred.
  rewrite Hrules, Hbase, Htok. repeat split; auto.
  exists []. rewrite app_nil_r. auto.
Qed.

Lemma later_state_emitError lexeme p u p' :
  rules_registered p ->
  PrattParser.emitError (ExpectExpression lexeme) p = Returns u p' ->
  later_state p p' /\ PrattParser.anErrorOccurred p' = true.
Proof.
  intros Hr H. injection H as _ <-. split; [| reflexivity].
  repeat split; auto. exists [ExpectExpression lexeme].
  split; [reflexivity |]. constructor; [eexists; reflexivity | constructor].
Qed.

Lemma later_state_error p p' :
  later_state p p' -> PrattParser.anErrorOccurred p = true ->
  PrattParser.anErrorOccurred p' = true.
Proof. intros (_ & _ & H & _). exact H. Qed.

Lemma later_state_registered p p' : later_state p p' -> rules_registered p'.
Proof. intros (H & _). exact H. Qed.

Ltac bind_step H a p Ha :=
  apply bind_Returns in H as (a & p & Ha & H).

(** The trees [parsePrecedence] and its loop return carry only the
    operators of the tokens that selected [unary] and [binary], and a null
    child only after an error was flagged. *)
Lemma parser_trees fuel :
  (forall prec p e p',
      rules_registered p ->
      parsePrecedence fuel prec p = Returns e p' ->
      later_state p p' /\ operators_valid e = true
      /\ (has_null e = true -> PrattParser.anErrorOccurred p' = true))
  /\ (forall prec expr p e p',
      rules_registered p -> operators_valid expr = true ->
      while_infix fuel prec expr p = Returns e p' ->
      later_state p p' /\ operators_valid e = true
      /\ (has_null e = true ->
          has_null expr = true \/ PrattParser.anErrorOccurred p' = true)).
Proof.
  induction fuel as [| fuel [IHp IHw]]; [split; intros; discriminate |].
  split.
  - intros prec p e p' Hr H. rewrite parsePrecedence_S in H.
    bind_step H token p1 Hadv.
    destruct (later_state_advance p token p1) as [L1 Hprev]; [assumption .. |].
    pose proof (later_state_registered _ _ L1) as Hr1.
    rewrite (bind_getRule _ _ _ Hr1) in H.
    assert (Hun : prefix (rule_table (type_ token)) = Some fn_unary ->
                  unary_operator (type_ token) = true)
      by (destruct (type_ token); simpl; congruence).
    assert (Hnum : prefix (rule_table (type_ token)) = Some fn_primary ->
                   type_ token = TokenType.number)
      by (destruct (type_ token); simpl; congruence).
    destruct (prefix (rule_table (type_ token))) as [[] |].
    + (* unary *)
      bind_step H expr p2 Hcall. simpl in Hcall. unfold PrattParser.unary in Hcall.
      rewrite (bind_previous _ _ _ Hprev) in Hcall.
      bind_step Hcall rhs p3 Hright. injection Hcall as <- <-.
      destruct (IHp _ _ _ _ Hr1 Hright) as (L2 & Hv2 & Hn2).
      pose proof (later_state_registered _ _ L2) as Hr2.
      assert (Hop : operators_valid (UnaryExpr (type_ token) rhs) = true)
        by (simpl; rewrite Hun, Hv2; reflexivity).
      destruct (IHw prec _ _ _ _ Hr2 Hop H) as (L3 & Hv & Hn).
      split; [eauto using later_state_trans |].
      split; [assumption |]. intros Hnull.
      destruct (Hn Hnull) as [Hsub | ?]; [| assumption].
      eapply later_state_error; [exact L3 | auto].
    + (* primary *)
      bind_step H expr p2 Hcall. simpl in Hcall. unfold PrattParser.primary in Hcall.
      rewrite (bind_previous _ _ _ Hprev), Hnum in Hcall by reflexivity.
      injection Hcall as <- <-.
      destruct (IHw prec (LiteralExpr (strtod (lexeme_ token))) _ _ _ Hr1 eq_refl H)
        as (L2 & Hv & Hn).
      split; [eauto using later_state_trans |].
      split; [assumption |]. intros Hnull.
      destruct (Hn Hnull); [discriminate | assumption].
    + (* no prefix rule *)
      bind_step H u p2 Hemit. injection H as <- <-.
      destruct (later_state_emitError _ _ _ _ Hr1 Hemit) as [L2 He].
      split; [eauto using later_state_trans | auto].
  - intros prec expr p e p' Hr Hexpr H. rewrite while_infix_S in H.
    bind_step H next p0 Hpeek. apply peek_Returns in Hpeek as ->.
    rewrite (bind_getRule _ _ _ Hr) in H.
    destruct (prec <=? precedence (rule_table (type_ next))).
    2: { injection H as <- <-. split; [apply later_state_refl; assumption | auto]. }
    bind_step H token p1 Hadv.
    destruct (later_state_advance p token p1) as [L1 Hprev]; [assumption .. |].
    pose proof (later_state_registered _ _ L1) as Hr1.
    rewrite (bind_getRule _ _ _ Hr1) in H.
    assert (Hbin : infix (rule_table (type_ token)) = Some fn_binary ->
                   binary_operator (type_ token) = true)
      by (destruct (type_ token); simpl; congruence).
    destruct (infix (rule_table (type_ token))) as [[] |]; [| discriminate].
    bind_step H expr' p2 Hcall. simpl in Hcall. unfold PrattParser.binary in Hcall.
    rewrite (bind_previous _ _ _ Hprev) in Hcall.
    rewrite (bind_getRule _ _ _ Hr1) in Hcall.
    bind_step Hcall rhs p3 Hright. injection Hcall as <- <-.
    destruct (IHp _ _ _ _ Hr1 Hright) as (L2 & Hv2 & Hn2).
    pose proof (later_state_registered _ _ L2) as Hr2.
    assert (Hop : operators_valid (BinaryExpr (type_ token) expr rhs) = true)
      by (simpl; rewrite Hbin, Hexpr, Hv2; reflexivity).
    destruct (IHw prec _ _ _ _ Hr2 Hop H) as (L3 & Hv & Hn).
    split; [eauto using later_state_trans |].
    split; [assumption |]. intros Hnull.
    destruct (Hn Hnull) as [Hsub | ?]; [| right; assumption].
    simpl in Hsub. apply orb_true_iff in Hsub as [? | Hsub]; [left; assumption |].
    right. eapply later_state_error; [exact L3 | auto].
Qed.

End ParserFacts.

(** * The evaluator and the whole turn *)

Section TurnFacts.

Variable strtod : string -> float.

Lemma parse_more_fuel fuel fuel' p :
  (fuel <= fuel')%nat ->
  PrattParser.parse strtod fuel p <> PrattParser.OutOfFuel ->
  PrattParser.parse strtod fuel' p = PrattParser.parse strtod fuel p.
Proof. apply parsePrecedence_more_fuel. Qed.

Lemma parses_to_more_fuel fuel fuel' tokens e :
  (fuel <= fuel')%nat ->
  parses_to strtod fuel tokens e -> parses_to strtod fuel' tokens e.
Proof.
  unfold parses_to. intros Hle H.
  rewrite (parse_more_fuel fuel fuel') by
    (first [exact Hle | intros Hout; rewrite Hout in H; exact H]).
  exact H.
Qed.

Lemma main_turn_more_fuel fuel fuel' line :
  (fuel <= fuel')%nat ->
  main_turn strtod fuel line <> Unfinished ->
  main_turn strtod fuel' line = main_turn strtod fuel line.
Proof.
  unfold main_turn. intros Hle H.
  destruct (Tokenizer.anErrorOccurred _); [reflexivity |].
  rewrite (parse_more_fuel fuel fuel'); [reflexivity | exact Hle |].
  intros Hout. rewrite Hout in H. congruence.
Qed.

End TurnFacts.

Lemma evaluateExpression_value e v b :
  value_of e = Some v -> Evaluator.evaluateExpression e b = (v, b).
Proof.
  revert v b. induction e as [| op l IHl r IHr | op r IHr | x]; intros v b H; simpl in H.
  - discriminate.
  - destruct (value_of l) as [a |], (value_of r) as [c |];
      try (destruct op; discriminate).
    simpl. rewrite (IHl a b eq_refl), (IHr c b eq_refl).
    destruct op; try discriminate; injection H as <-; reflexivity.
  - destruct op; try discriminate.
    + destruct (value_of r) as [c |]; [| discriminate]. injection H as <-.
      simpl. rewrite (IHr c b eq_refl). reflexivity.
    + simpl. rewrite (IHr v b H). reflexivity.
  - injection H as <-. reflexivity.
Qed.

(** IEEE-754 division by a zero: the quotient is an infinity with the
    sign of the dividend (the opposite one for the divisor [-0]), and NaN
    when the dividend is a zero or NaN. *)
Lemma div_by_zero (a : float) :
  (a / 0)%float =
  (if 0 <? a then infinity else if a <? 0 then neg_infinity else nan)%float.
Proof.
  rewrite !FloatAxioms.ltb_spec. apply FloatAxioms.Prim2SF_inj.
  rewrite FloatAxioms.div_spec.
  destruct (FloatOps.Prim2SF a) as [[] | [] | | [] m e]; reflexivity.
Qed.

Lemma div_by_neg_zero (a : float) :
  (a / (-0))%float =
  (if 0 <? a then neg_infinity else if a <? 0 then infinity else nan)%float.
Proof.
  rewrite !FloatAxioms.ltb_spec. apply FloatAxioms.Prim2SF_inj.
  rewrite FloatAxioms.div_spec.
  destruct (FloatOps.Prim2SF a) as [[] | [] | | [] m e]; reflexivity.
Qed.

Lemma evaluateExpression_slash l r a b e :
  value_of l = Some a -> value_of r = Some b ->
  Evaluator.evaluateExpression (BinaryExpr TokenType.slash l r) e =
  ((a / b)%float, e).
Proof.
  intros Hl Hr. apply evaluateExpression_value. simpl. rewrite Hl, Hr. reflexivity.
Qed.

Lemma well_formed_value e :
  operators_valid e = true -> has_null e = false -> exists v, value_of e = Some v.
Proof.
  induction e as [| op l IHl r IHr | op r IHr | x]; simpl; intros Hv Hn.
  - discriminate.
  - apply andb_true_iff in Hv as [Hv Hr]. apply andb_true_iff in Hv as [Hop Hl].
    apply orb_false_iff in Hn as [Hnl Hnr].
    destruct (IHl Hl Hnl) as [a ->], (IHr Hr Hnr) as [c ->].
    destruct op; try discriminate; eauto.
  - apply andb_true_iff in Hv as [Hop Hr]. destruct (IHr Hr Hn) as [c Hc].
    rewrite Hc. destruct op; try discriminate; simpl; eauto.
  - eauto.
Qed.

(** ** Runs of the parser *)

Section ParserRuns.

Variable strtod : string -> float.

(** Every diagnostic of a parse that returns is an [ExpectExpression]:
    the parser reports an error only where a token without a prefix action
    stands in prefix position. *)
Lemma parse_reports_only_missing_prefix fuel tokens e p' :
  PrattParser.parse strtod fuel (PrattParser.new tokens) =
    PrattParser.Returns e p' ->
  Forall only_expect_expression (Erronable.emitted_ (PrattParser.base p')).
Proof.
  intros H. apply (proj1 (parser_trees strtod fuel)) in H; [| reflexivity].
  destruct H as ((_ & _ & _ & ds & -> & Hds) & _). exact Hds.
Qed.

(** A first token [*] or [/] is rejected with its lexeme. *)
Lemma parse_rejects_star_slash fuel first rest :
  type_ first = TokenType.star \/ type_ first = TokenType.slash ->
  parse_rejects strtod (1 + fuel) (first :: rest) (lexeme_ first).
Proof.
  intros Hty. unfold parse_rejects.
  rewrite (parse_more_fuel strtod 1 (1 + fuel)).
  - unfold PrattParser.parse, PrattParser.expression.
    rewrite parsePrecedence_S.
    destruct first as [k lexeme]. simpl in Hty.
    destruct Hty as [-> | ->]; split; reflexivity.
  - lia.
  - destruct first as [k lexeme]. simpl in Hty.
    destruct Hty as [-> | ->]; discriminate.
Qed.


(** At [eof], [advance] hands out the operator again: [unary] calls
    [parsePrecedence], which calls [unary], without end. *)
Lemma operator_at_end_recurses fuel prec :
  PrattParser.parsePrecedence strtod fuel prec after_minus =
  PrattParser.OutOfFuel.
Proof.
  revert prec. induction fuel as [| fuel IH]; intros prec; [reflexivity |].
  rewrite parsePrecedence_S.
  change (PrattParser.bind
            (PrattParser.bind (PrattParser.parsePrecedence strtod fuel UNARY)
               (fun rhs => PrattParser.ret (UnaryExpr TokenType.minus rhs)))
            (fun expr => PrattParser.while_infix strtod fuel prec expr)
            after_minus = PrattParser.OutOfFuel).
  unfold PrattParser.bind. rewrite IH. reflexivity.
Qed.

Lemma lone_minus_never_finishes fuel :
  main_turn strtod fuel "-" = Unfinished.
Proof.
  destruct fuel as [| fuel]; [reflexivity |].
  unfold main_turn.
  change (match PrattParser.parsePrecedence strtod (S fuel) TERM
                  (PrattParser.new [tok TokenType.minus "-"; eof_token]) with
          | PrattParser.Returns ast parser =>
              if PrattParser.anErrorOccurred parser then ParserError parser
              else let '(value, evaluator) := Evaluator.eval (Evaluator.new ast) in
                   Printed value evaluator
          | PrattParser.Faults f => Crashed f
          | PrattParser.OutOfFuel => Unfinished
          end = Unfinished).
  rewrite parsePrecedence_S.
  change (match PrattParser.bind
            (PrattParser.bind (PrattParser.parsePrecedence strtod fuel UNARY)
               (fun rhs => PrattParser.ret (UnaryExpr TokenType.minus rhs)))
            (fun expr => PrattParser.while_infix strtod fuel TERM expr)
            after_minus with
          | PrattParser.Returns ast parser =>
              if PrattParser.anErrorOccurred parser then ParserError parser
              else let '(value, evaluator) := Evaluator.eval (Evaluator.new ast) in
                   Printed value evaluator
          | PrattParser.Faults f => Crashed f
          | PrattParser.OutOfFuel => Unfinished
          end = Unfinished).
  unfold PrattParser.bind. rewrite operator_at_end_recurses. reflexivity.
Qed.

End ParserRuns.

Ltac run_turn strtod k :=
  match goal with
  | |- main_turn _ (k + ?fuel)%nat _ = _ =>
      rewrite (main_turn_more_fuel strtod k (k + fuel)%nat) by
        (first [lia | vm_compute; discriminate]);
      vm_compute
  end.

Ltac run_parse strtod k :=
  match goal with
  | |- parses_to _ (k + ?fuel)%nat _ _ =>
      apply (parses_to_more_fuel strtod k (k + fuel)%nat); [lia |];
      vm_compute; split; reflexivity
  end.

(** * The claims *)

(** C1, as amended: for every non-empty sequence of digit characters [d],
    a turn on the line [d] goes through the tokenizer, the parser and the
    evaluator without an error flag and prints the value the host's
    [strtod] gives for [d]; the tree is the single literal. *)
Theorem C1_digit_sequence_evaluates_to_strtod
    (strtod : string -> float) (d : string) (fuel : nat) :
  d <> EmptyString -> digit_sequence d ->
  main_turn strtod (2 + fuel) d =
  Printed (strtod d) (Evaluator.new (LiteralExpr (strtod d))).
Proof.
  intros Hne Hds.
  rewrite (main_turn_more_fuel strtod 2 (2 + fuel)) by
    (first [lia | unfold main_turn; rewrite (lex_digit_sequence d Hne Hds);
                  discriminate]).
  unfold main_turn. rewrite (lex_digit_sequence d Hne Hds). reflexivity.
Qed.

Lemma C1_witness :
  main_turn strtod_digits 2 "42" =
  Printed 42%float (Evaluator.new (LiteralExpr 42%float)).
Proof.
  refine (C1_digit_sequence_evaluates_to_strtod strtod_digits "42" 0 _ _).
  - discriminate.
  - unfold digit_sequence, digits. simpl. repeat constructor.
Defined.

(** C1 as stated fails at the empty sequence: its only token is [eof], the
    parser's [advance] does not move and [previous] reads [tokens_] at
    index [uint32 (0 - 1)]; the turn prints nothing. *)
Lemma C1_empty_sequence :
  digit_sequence ""
  /\ tokens_of "" = [eof_token]
  /\ (forall strtod fuel,
        main_turn strtod (1 + fuel) "" = Crashed (OutOfRange 4294967295))
  /\ (forall strtod fuel value evaluator,
        main_turn strtod fuel "" <> Printed value evaluator).
Proof.
  assert (H : forall strtod fuel,
             main_turn strtod (1 + fuel) "" = Crashed (OutOfRange 4294967295)).
  { intros strtod fuel.
    rewrite (main_turn_more_fuel strtod 1 (1 + fuel)) by (first [lia | discriminate]).
    reflexivity. }
  split; [constructor |]. split; [reflexivity |]. split; [exact H |].
  intros strtod [| fuel] value evaluator; [discriminate |].
  change (S fuel) with (1 + fuel)%nat. rewrite (H strtod fuel). discriminate.
Qed.

(** C2: [binary] asks for its right operand at the operator's precedence
    plus one; hence two binary operators of equal precedence group to the
    left, whatever the three numbers; and the line [8 - 3 - 2] gives the
    tree ((8-3)-2) and prints 3. *)
Theorem C2_left_associative (strtod : string -> float) :
  strtod "8" = 8%float -> strtod "3" = 3%float -> strtod "2" = 2%float ->
  (forall f lhs p op rule,
      PrattParser.previous p = PrattParser.Returns op p ->
      PrattParser.getRule (type_ op) p = PrattParser.Returns rule p ->
      PrattParser.binary f lhs p =
      PrattParser.bind (f (precedence rule + 1))
        (fun rhs => PrattParser.ret (BinaryExpr (type_ op) lhs rhs)) p)
  /\ (forall k1 k2 a b c l1 l2 fuel,
        binary_operator k1 = true -> binary_operator k2 = true ->
        precedence (rule_table k1) = precedence (rule_table k2) ->
        parses_to strtod (8 + fuel)
          [tok TokenType.number a; tok k1 l1; tok TokenType.number b;
           tok k2 l2; tok TokenType.number c; eof_token]
          (BinaryExpr k2
             (BinaryExpr k1 (LiteralExpr (strtod a)) (LiteralExpr (strtod b)))
             (LiteralExpr (strtod c))))
  /\ (forall fuel,
        main_turn strtod (8 + fuel) "8 - 3 - 2" =
        Printed 3%float
          (quiet (BinaryExpr TokenType.minus
                    (BinaryExpr TokenType.minus (LiteralExpr 8) (LiteralExpr 3))
                    (LiteralExpr 2)))).
Proof.
  intros H8 H3 H2. split; [| split].
  - intros f lhs p op rule Hprev Hrule. unfold PrattParser.binary.
    unfold PrattParser.bind at 1. rewrite Hprev.
    unfold PrattParser.bind at 1. rewrite Hrule. reflexivity.
  - intros k1 k2 a b c l1 l2 fuel Hk1 Hk2 Heq.
    destruct k1; try discriminate Hk1; destruct k2; try discriminate Hk2;
      try discriminate Heq; run_parse strtod 8%nat.
  - intros fuel. run_turn strtod 8%nat. rewrite H8, H3, H2. reflexivity.
Qed.

Lemma C2_witness :
  main_turn strtod_digits 8 "8 - 3 - 2" =
  Printed 3%float
    (quiet (BinaryExpr TokenType.minus
              (BinaryExpr TokenType.minus (LiteralExpr 8) (LiteralExpr 3))
              (LiteralExpr 2))).
Proof.
  refine (proj2 (proj2 (C2_left_associative strtod_digits _ _ _)) 0%nat);
    reflexivity.
Defined.

(** C3: the precedences are ordered None < Term < Factor < Unary < Primary,
    the table built by [registerAllRules] gives [+ -] Term and [* /]
    Factor, so a Factor operator next to a Term operator takes the number
    between them, on either side; the line [2 + 3 * 4] gives the tree
    2 + (3*4) and prints 14. *)
Theorem C3_factor_binds_tighter_than_term (strtod : string -> float) :
  strtod "2" = 2%float -> strtod "3" = 3%float -> strtod "4" = 4%float ->
  (NONE < TERM /\ TERM < FACTOR /\ FACTOR < UNARY /\ UNARY < PRIMARY)
  /\ (forall k, PrattParser.registerAllRules ∅ !! k = Some (rule_table k))
  /\ (forall add mul a b c l1 l2 fuel,
        precedence (rule_table add) = TERM ->
        precedence (rule_table mul) = FACTOR ->
        parses_to strtod (8 + fuel)
          [tok TokenType.number a; tok add l1; tok TokenType.number b;
           tok mul l2; tok TokenType.number c; eof_token]
          (BinaryExpr add (LiteralExpr (strtod a))
             (BinaryExpr mul (LiteralExpr (strtod b)) (LiteralExpr (strtod c))))
        /\ parses_to strtod (8 + fuel)
          [tok TokenType.number a; tok mul l1; tok TokenType.number b;
           tok add l2; tok TokenType.number c; eof_token]
          (BinaryExpr add
             (BinaryExpr mul (LiteralExpr (strtod a)) (LiteralExpr (strtod b)))
             (LiteralExpr (strtod c))))
  /\ (forall fuel,
        main_turn strtod (8 + fuel) "2 + 3 * 4" =
        Printed 14%float
          (quiet (BinaryExpr TokenType.plus (LiteralExpr 2)
                    (BinaryExpr TokenType.star (LiteralExpr 3) (LiteralExpr 4))))).
Proof.
  intros H2 H3 H4. split; [| split; [| split]].
  - unfold NONE, TERM, FACTOR, UNARY, PRIMARY. lia.
  - apply registerAllRules_lookup.
  - intros add mul a b c l1 l2 fuel Hadd Hmul.
    destruct add; try discriminate Hadd; destruct mul; try discriminate Hmul;
      split; run_parse strtod 8%nat.
  - intros fuel. run_turn strtod 8%nat. rewrite H2, H3, H4. reflexivity.
Qed.

Lemma C3_witness :
  main_turn strtod_digits 8 "2 + 3 * 4" =
  Printed 14%float
    (quiet (BinaryExpr TokenType.plus (LiteralExpr 2)
              (BinaryExpr TokenType.star (LiteralExpr 3) (LiteralExpr 4)))).
Proof.
  refine (proj2 (proj2 (proj2
            (C3_factor_binds_tighter_than_term strtod_digits _ _ _))) 0%nat);
    reflexivity.
Defined.

(** C4: [unary] parses its operand at Unary precedence, which is above the
    precedence of every token that has an infix action; so a prefix
    operator applied to a prefix operator nests to the right, and a prefix
    operator takes only the number after it when a binary operator follows;
    the line [-2 + 3] prints 1 and the line [- -5] prints 5. *)
Theorem C4_unary_binds_tightest (strtod : string -> float) :
  strtod "2" = 2%float -> strtod "3" = 3%float -> strtod "5" = 5%float ->
  (forall f p op,
      PrattParser.previous p = PrattParser.Returns op p ->
      PrattParser.unary f p =
      PrattParser.bind (f UNARY)
        (fun rhs => PrattParser.ret (UnaryExpr (type_ op) rhs)) p)
  /\ (forall k rule,
        PrattParser.registerAllRules ∅ !! k = Some rule ->
        infix rule <> None -> precedence rule < UNARY)
  /\ (forall u1 u2 a l1 l2 fuel,
        unary_operator u1 = true -> unary_operator u2 = true ->
        parses_to strtod (8 + fuel)
          [tok u1 l1; tok u2 l2; tok TokenType.number a; eof_token]
          (UnaryExpr u1 (UnaryExpr u2 (LiteralExpr (strtod a)))))
  /\ (forall u k a b l1 l2 fuel,
        unary_operator u = true -> binary_operator k = true ->
        parses_to strtod (8 + fuel)
          [tok u l1; tok TokenType.number a; tok k l2; tok TokenType.number b;
           eof_token]
          (BinaryExpr k (UnaryExpr u (LiteralExpr (strtod a)))
             (LiteralExpr (strtod b))))
  /\ (forall fuel,
        main_turn strtod (8 + fuel) "-2 + 3" =
        Printed 1%float
          (quiet (BinaryExpr TokenType.plus
                    (UnaryExpr TokenType.minus (LiteralExpr 2)) (LiteralExpr 3))))
  /\ (forall fuel,
        main_turn strtod (8 + fuel) "- -5" =
        Printed 5%float
          (quiet (UnaryExpr TokenType.minus
                    (UnaryExpr TokenType.minus (LiteralExpr 5))))).
Proof.
  intros H2 H3 H5. repeat apply conj.
  - intros f p op Hprev. unfold PrattParser.unary.
    unfold PrattParser.bind at 1. rewrite Hprev. reflexivity.
  - intros k rule Hk. rewrite registerAllRules_lookup in Hk. injection Hk as <-.
    destruct k; simpl; intros Hinfix; try congruence; unfold TERM, FACTOR, UNARY; lia.
  - intros u1 u2 a l1 l2 fuel Hu1 Hu2.
    destruct u1; try discriminate Hu1; destruct u2; try discriminate Hu2;
      run_parse strtod 8%nat.
  - intros u k a b l1 l2 fuel Hu Hk.
    destruct u; try discriminate Hu; destruct k; try discriminate Hk;
      run_parse strtod 8%nat.
  - intros fuel. run_turn strtod 8%nat. rewrite H2, H3. reflexivity.
  - intros fuel. run_turn strtod 8%nat. rewrite H5. reflexivity.
Qed.

Lemma C4_witness :
  main_turn strtod_digits 8 "-2 + 3" =
  Printed 1%float
    (quiet (BinaryExpr TokenType.plus
              (UnaryExpr TokenType.minus (LiteralExpr 2)) (LiteralExpr 3)))
  /\ main_turn strtod_digits 8 "- -5" =
     Printed 5%float
       (quiet (UnaryExpr TokenType.minus
                 (UnaryExpr TokenType.minus (LiteralExpr 5)))).
Proof.
  pose proof (C4_unary_binds_tightest strtod_digits eq_refl eq_refl eq_refl)
    as (_ & _ & _ & _ & Ha & Hb).
  exact (conj (Ha 0%nat) (Hb 0%nat)).
Defined.

(** C5, as amended: for every input, the lexeme of every [number] token
    that [lex] emits is a word of
    [digit+ ('.' digit* )? ('e' ('+'|'-')? digit* )?]: the digits after the
    point and after the exponent mark may be missing. *)
Theorem C5_number_lexemes_scanned_grammar (line : string) :
  number_tokens scanned_grammar (tokens_of line).
Proof.
  unfold tokens_of, Tokenizer.lex. apply lex_for_number_tokens. constructor.
Qed.

(** C5 as stated fails on the line [1.]: its [number] token has the lexeme
    [1.], which is no word of [digit+ ('.' digit+)? ('e' ('+'|'-')? digit+)?]. *)
Lemma C5_trailing_point :
  tokens_of "1." = [tok TokenType.number "1."; eof_token]
  /\ ~ numeric_grammar "1.".
Proof.
  split; [reflexivity |].
  intros (int & frac & exp & Heq & [Hne Hint] & Hfrac & Hexp). simpl in Heq.
  destruct int as [| c1 int]; [congruence |].
  injection Heq as <- Heq.
  destruct int as [| c2 int].
  - destruct Hfrac as [-> | (f & -> & Hf1 & _)].
    + destruct Hexp as [-> | (s & e & -> & _)]; discriminate.
    + injection Heq as Heq. destruct f; [congruence | discriminate].
  - injection Heq as <- Heq. inversion Hint as [| ? ? _ Hrest]; subst.
    inversion Hrest as [| ? ? Hdot _]; subst. discriminate.
Qed.

(** C6, on the line [2 3]: after the literal 2 the loop of
    [parsePrecedence] finds the [number] token 3, whose precedence Primary
    passes the test, and calls its infix action, which is null.  The parse
    neither reports a missing prefix action nor returns a tree. *)
Theorem C6_number_in_infix_position (strtod : string -> float) (fuel : nat) :
  tokens_of "2 3" =
    [tok TokenType.number "2"; tok TokenType.number "3"; eof_token]
  /\ PrattParser.parse strtod (2 + fuel) (PrattParser.new (tokens_of "2 3")) =
     PrattParser.Faults NullMemberCall
  /\ main_turn strtod (2 + fuel) "2 3" = Crashed NullMemberCall.
Proof.
  split; [reflexivity |]. split.
  - rewrite (parse_more_fuel strtod 2 (2 + fuel)) by (first [lia | discriminate]).
    reflexivity.
  - rewrite (main_turn_more_fuel strtod 2 (2 + fuel)) by (first [lia | discriminate]).
    reflexivity.
Qed.

(** C7, on the line [3&4]: the [continue] after [lexNumber] runs the loop's
    [it++] over the character the number stopped at, so [&] is never
    examined: two [number] tokens and [eof], no diagnostic.  This holds of
    any character after the [3] that does not continue the literal.  With
    blanks around it, [&] is reported at column 2. *)
Theorem C7_character_after_number_is_skipped :
  Tokenizer.lex (Tokenizer.new "3&4") =
    {| Tokenizer.source_ := "3&4";
       Tokenizer.tokens_ :=
         [tok TokenType.number "3"; tok TokenType.number "4"; eof_token];
       Tokenizer.base := Erronable.new |}
  /\ (forall c : ascii,
        isdigit c || Ascii.eqb c "." || Ascii.eqb c "e" = true
        \/ let line := String "3" (String c "4") in
           Tokenizer.lex (Tokenizer.new line) =
           {| Tokenizer.source_ := line;
              Tokenizer.tokens_ :=
                [tok TokenType.number "3"; tok TokenType.number "4"; eof_token];
              Tokenizer.base := Erronable.new |})
  /\ Tokenizer.lex (Tokenizer.new "3 & 4") =
     {| Tokenizer.source_ := "3 & 4";
        Tokenizer.tokens_ := [tok TokenType.number "3"];
        Tokenizer.base :=
          {| Erronable.hadError_ := true;
             Erronable.emitted_ := [UnexpectedCharacter 2 "&"] |} |}.
Proof.
  split; [reflexivity |]. split; [| reflexivity].
  intros [[] [] [] [] [] [] [] []]; vm_compute; auto.
Qed.

(** C8, on the empty line: its token sequence is [eof] alone, whose rule
    has no prefix action; [advance] leaves [current_] at 0 and [previous]
    reads [tokens_] at index [uint32 (0 - 1)], so no [ExpectExpression] is
    emitted.  A first token [*] or [/] is rejected with its lexeme, as on
    the line [* 2]. *)
Theorem C8_eof_in_prefix_position (strtod : string -> float) (fuel : nat) :
  tokens_of "" = [eof_token]
  /\ prefix (rule_table (type_ eof_token)) = None
  /\ PrattParser.parse strtod (1 + fuel) (PrattParser.new (tokens_of "")) =
     PrattParser.Faults (OutOfRange 4294967295)
  /\ parse_rejects strtod (1 + fuel) (tokens_of "* 2") "*".
Proof.
  split; [reflexivity |]. split; [reflexivity |]. split.
  - rewrite (parse_more_fuel strtod 1 (1 + fuel)) by (first [lia | discriminate]).
    reflexivity.
  - apply (parse_rejects_star_slash strtod fuel (tok TokenType.star "*")).
    left. reflexivity.
Qed.

(** C9: division by zero raises no error flag in the evaluator and gives
    the IEEE-754 quotient: the line [1 / 0] prints positive infinity and
    the line [-1 / 0] prints negative infinity.  In general, a division
    node over operands with the values [a] and [b] evaluates to the native
    quotient [a / b] and leaves the error state as it was, for every
    dividend and every divisor; over the divisor [0] the quotient is
    positive infinity for a dividend above zero, negative infinity for one
    below, and NaN for a zero or NaN dividend, with the signs exchanged
    over the divisor [-0]. *)
Theorem C9_division_by_zero (strtod : string -> float) :
  strtod "1" = 1%float -> strtod "0" = 0%float ->
  (forall fuel,
      main_turn strtod (8 + fuel) "1 / 0" =
      Printed infinity
        (quiet (BinaryExpr TokenType.slash (LiteralExpr 1) (LiteralExpr 0))))
  /\ (forall fuel,
        main_turn strtod (8 + fuel) "-1 / 0" =
        Printed neg_infinity
          (quiet (BinaryExpr TokenType.slash
                    (UnaryExpr TokenType.minus (LiteralExpr 1)) (LiteralExpr 0))))
  /\ (forall (l r : Expr) (a b : float) (e : Erronable.t),
        value_of l = Some a -> value_of r = Some b ->
        Evaluator.evaluateExpression (BinaryExpr TokenType.slash l r) e =
        ((a / b)%float, e))
  /\ (forall (l r : Expr) (a : float) (e : Erronable.t),
        value_of l = Some a ->
        (value_of r = Some 0%float ->
         Evaluator.evaluateExpression (BinaryExpr TokenType.slash l r) e =
         ((if 0 <? a then infinity
           else if a <? 0 then neg_infinity else nan)%float, e))
        /\ (value_of r = Some (-0)%float ->
            Evaluator.evaluateExpression (BinaryExpr TokenType.slash l r) e =
            ((if 0 <? a then neg_infinity
              else if a <? 0 then infinity else nan)%float, e))).
Proof.
  intros H1 H0. split; [| split; [| split]].
  - intros fuel. run_turn strtod 8%nat. rewrite H1, H0. reflexivity.
  - intros fuel. run_turn strtod 8%nat. rewrite H1, H0. reflexivity.
  - intros l r a b e Hl Hr. apply evaluateExpression_slash; assumption.
  - intros l r a e Hl. split; intros Hr.
    + rewrite (evaluateExpression_slash l r a 0 e Hl Hr), div_by_zero. reflexivity.
    + rewrite (evaluateExpression_slash l r a (-0) e Hl Hr), div_by_neg_zero.
      reflexivity.
Qed.

Lemma C9_witness :
  main_turn strtod_digits 8 "1 / 0" =
  Printed infinity
    (quiet (BinaryExpr TokenType.slash (LiteralExpr 1) (LiteralExpr 0)))
  /\ main_turn strtod_digits 8 "-1 / 0" =
     Printed neg_infinity
       (quiet (BinaryExpr TokenType.slash
                 (UnaryExpr TokenType.minus (LiteralExpr 1)) (LiteralExpr 0)))
  /\ Evaluator.evaluateExpression
       (BinaryExpr TokenType.slash (LiteralExpr 0) (LiteralExpr 0)) Erronable.new =
     (nan, Erronable.new)
  /\ Evaluator.evaluateExpression
       (BinaryExpr TokenType.slash (LiteralExpr 3) (LiteralExpr (-0))) Erronable.new =
     (neg_infinity, Erronable.new).
Proof.
  pose proof (C9_division_by_zero strtod_digits eq_refl eq_refl)
    as (Ha & Hb & _ & Hz).
  split; [exact (Ha 0%nat) |]. split; [exact (Hb 0%nat) |]. split.
  - exact (proj1 (Hz (LiteralExpr 0) (LiteralExpr 0) 0%float Erronable.new eq_refl)
             eq_refl).
  - exact (proj2 (Hz (LiteralExpr 3) (LiteralExpr (-0)) 3%float Erronable.new eq_refl)
             eq_refl).
Defined.

(** C10: a tree that [parse] returns without having flagged an error has
    no null child, only [+ -] on its unary and [+ - * /] on its binary
    nodes; [eval] on it raises no error and returns the arithmetic value
    of the tree, not the fallback of [evaluateExpression]. *)
Theorem C10_parsed_trees_evaluate_without_error
    (strtod : string -> float) (fuel : nat) (tokens : list Token)
    (ast : Expr) (parser : PrattParser.t) :
  PrattParser.parse strtod fuel (PrattParser.new tokens) =
    PrattParser.Returns ast parser ->
  PrattParser.anErrorOccurred parser = false ->
  operators_valid ast = true
  /\ has_null ast = false
  /\ exists value,
      value_of ast = Some value
      /\ Evaluator.eval (Evaluator.new ast) = (value, quiet ast).
Proof.
  intros Hparse Hquiet.
  apply (proj1 (parser_trees strtod fuel)) in Hparse as (_ & Hvalid & Hnull);
    [| reflexivity].
  assert (Hn : has_null ast = false).
  { destruct (has_null ast); [| reflexivity].
    rewrite Hnull in Hquiet by reflexivity. discriminate. }
  split; [assumption |]. split; [assumption |].
  destruct (well_formed_value ast Hvalid Hn) as [value Hvalue].
  exists value. split; [assumption |].
  unfold Evaluator.eval. simpl.
  rewrite (evaluateExpression_value _ _ _ Hvalue). reflexivity.
Qed.

Lemma C10_witness :
  operators_valid minus_two_times_three = true
  /\ has_null minus_two_times_three = false
  /\ exists value,
      value_of minus_two_times_three = Some value
      /\ Evaluator.eval (Evaluator.new minus_two_times_three) =
         (value, quiet minus_two_times_three).
Proof.
  eapply (C10_parsed_trees_evaluate_without_error strtod_digits 8
            (tokens_of "-2 * 3")).
  - vm_compute. reflexivity.
  - reflexivity.
Defined.

(** * Further facts about the tokenizer *)

Section TokenizerMore.
Local Open Scope nat_scope.
Implicit Types (src pre : list ascii) (it : nat) (tk : Tokenizer.t).

Lemma isspace_not_isdigit c : isspace c = true -> isdigit c = false.
Proof.
  intros H. destruct (isdigit c) eqn:Hd; [| reflexivity].
  rewrite (isdigit_not_isspace c Hd) in H. discriminate.
Qed.

(** ** The result does not depend on what was scanned before *)

Lemma lex_for_frame k src it tk :
  let r := Tokenizer.lex_for k src it tk in
  let r0 := Tokenizer.lex_for k src it (Tokenizer.new EmptyString) in
  Tokenizer.tokens_ r = Tokenizer.tokens_ tk ++ Tokenizer.tokens_ r0
  /\ Tokenizer.anErrorOccurred r =
     Tokenizer.anErrorOccurred tk || Tokenizer.anErrorOccurred r0.
Proof.
  cbv zeta. revert it tk. induction k as [| k IH]; intros it tk.
  - simpl. rewrite orb_false_r. auto.
  - rewrite !lex_for_S. destruct (it <? length src).
    2: { simpl. rewrite orb_false_r. auto. }
    cbv zeta. destruct (isspace _); [apply IH |].
    assert (Hadd : forall k' lexeme it',
      Tokenizer.tokens_
        (Tokenizer.lex_for k src it' (Tokenizer.emplace_back k' lexeme tk)) =
      Tokenizer.tokens_ tk ++
      Tokenizer.tokens_
        (Tokenizer.lex_for k src it'
           (Tokenizer.emplace_back k' lexeme (Tokenizer.new EmptyString)))
      /\ Tokenizer.anErrorOccurred
           (Tokenizer.lex_for k src it' (Tokenizer.emplace_back k' lexeme tk)) =
         Tokenizer.anErrorOccurred tk ||
         Tokenizer.anErrorOccurred
           (Tokenizer.lex_for k src it'
              (Tokenizer.emplace_back k' lexeme (Tokenizer.new EmptyString)))).
    { intros k' lexeme it'.
      destruct (IH it' (Tokenizer.emplace_back k' lexeme tk)) as [-> ->].
      destruct (IH it' (Tokenizer.emplace_back k' lexeme (Tokenizer.new EmptyString)))
        as [-> ->].
      simpl. rewrite <- app_assoc. auto. }
    destruct (isdigit _); [apply Hadd |].
    repeat (destruct (Ascii.eqb _ _); [apply Hadd |]).
    simpl. rewrite app_nil_r, orb_true_r. auto.
Qed.

(** ** Scanning behind a prefix *)

Lemma deref_app pre src it :
  Tokenizer.deref (pre ++ src) (length pre + it) = Tokenizer.deref src it.
Proof. unfold Tokenizer.deref. rewrite lookup_app_r by lia. f_equal. f_equal. lia. Qed.

Lemma while_isdigit_loop_app k pre src it :
  Tokenizer.while_isdigit_loop k (pre ++ src) (length pre + it) =
  length pre + Tokenizer.while_isdigit_loop k src it.
Proof.
  revert it. induction k as [| k IH]; intros it; simpl; [reflexivity |].
  rewrite deref_app, length_app.
  replace (length pre + it <? length pre + length src) with (it <? length src).
  2: { destruct (Nat.ltb_spec it (length src)), (Nat.ltb_spec (length pre + it) (length pre + length src)); auto; lia. }
  destruct (_ && _); [| reflexivity].
  rewrite <- Nat.add_succ_r. apply IH.
Qed.

Lemma while_isdigit_app pre src it :
  Tokenizer.while_isdigit (pre ++ src) (length pre + it) =
  length pre + Tokenizer.while_isdigit src it.
Proof.
  unfold Tokenizer.while_isdigit. rewrite length_app.
  replace (length pre + length src - (length pre + it)) with (length src - it) by lia.
  apply while_isdigit_loop_app.
Qed.

Lemma lexNumber_app pre src it :
  Tokenizer.lexNumber (pre ++ src) (length pre + it) =
  length pre + Tokenizer.lexNumber src it.
Proof.
  unfold Tokenizer.lexNumber.
  rewrite while_isdigit_app, deref_app.
  destruct (Ascii.eqb (Tokenizer.deref src (Tokenizer.while_isdigit src it)) ".").
  - rewrite <- Nat.add_succ_r, while_isdigit_app, deref_app.
    destruct (negb _); [reflexivity |].
    rewrite <- !Nat.add_succ_r, deref_app.
    destruct (_ || _); rewrite <- ?Nat.add_succ_r; apply while_isdigit_app.
  - rewrite deref_app.
    destruct (negb _); [reflexivity |].
    rewrite <- !Nat.add_succ_r, deref_app.
    destruct (_ || _); rewrite <- ?Nat.add_succ_r; apply while_isdigit_app.
Qed.

Lemma range_app pre src a b :
  Tokenizer.range (pre ++ src) (length pre + a) (length pre + b) =
  Tokenizer.range src a b.
Proof.
  unfold Tokenizer.range. f_equal.
  replace (length pre + b - (length pre + a)) with (b - a) by lia.
  rewrite drop_app_add. reflexivity.
Qed.

Lemma lex_for_app k pre src it tk :
  scanned (Tokenizer.lex_for k (pre ++ src) (length pre + it) tk) =
  scanned (Tokenizer.lex_for k src it tk).
Proof.
  revert it tk. induction k as [| k IH]; intros it tk; [reflexivity |].
  rewrite !lex_for_S, deref_app, length_app.
  replace (length pre + it <? length pre + length src) with (it <? length src).
  2: { destruct (Nat.ltb_spec it (length src)), (Nat.ltb_spec (length pre + it) (length pre + length src)); auto; lia. }
  destruct (it <? length src); [| reflexivity]. cbv zeta.
  destruct (isspace _); [rewrite <- Nat.add_succ_r; apply IH |].
  destruct (isdigit _).
  { rewrite lexNumber_app, range_app, <- Nat.add_succ_r. apply IH. }
  repeat (destruct (Ascii.eqb _ _); [rewrite <- Nat.add_succ_r; apply IH |]).
  reflexivity.
Qed.

(** ** A word of the grammar is scanned whole *)

Lemma lexNumber_phases src it :
  Tokenizer.lexNumber src it =
  lexNumber_exponent src (lexNumber_fraction src (Tokenizer.while_isdigit src it)).
Proof. reflexivity. Qed.

Lemma lexNumber_fraction_app pre src it :
  lexNumber_fraction (pre ++ src) (length pre + it) =
  length pre + lexNumber_fraction src it.
Proof.
  unfold lexNumber_fraction. rewrite deref_app.
  destruct (Ascii.eqb _ _); [| reflexivity].
  rewrite <- Nat.add_succ_r. apply while_isdigit_app.
Qed.

Lemma lexNumber_exponent_app pre src it :
  lexNumber_exponent (pre ++ src) (length pre + it) =
  length pre + lexNumber_exponent src it.
Proof.
  unfold lexNumber_exponent. rewrite deref_app.
  destruct (negb _); [reflexivity |]. cbv zeta.
  rewrite <- !Nat.add_succ_r, deref_app.
  destruct (_ || _); rewrite <- ?Nat.add_succ_r; apply while_isdigit_app.
Qed.

Lemma first_char_app_nil l : first_char ([] ++ l) = first_char l.
Proof. reflexivity. Qed.

Lemma while_isdigit_stop l :
  isdigit (first_char l) = false -> Tokenizer.while_isdigit l 0 = 0.
Proof.
  intros H. unfold Tokenizer.while_isdigit.
  destruct (length l - 0); simpl; [reflexivity |].
  unfold first_char in H. rewrite H. reflexivity.
Qed.

Lemma while_isdigit_cons c src it :
  Tokenizer.while_isdigit (c :: src) (S it) = S (Tokenizer.while_isdigit src it).
Proof. apply (while_isdigit_app [c] src it). Qed.

Lemma while_isdigit_behind pre src :
  Tokenizer.while_isdigit (pre ++ src) (length pre) =
  length pre + Tokenizer.while_isdigit src 0.
Proof.
  rewrite <- (Nat.add_0_r (length pre)) at 1. apply while_isdigit_app.
Qed.

Lemma while_isdigit_run d l :
  digits d -> isdigit (first_char l) = false ->
  Tokenizer.while_isdigit (d ++ l) 0 = length d.
Proof.
  intros Hd Hl. induction Hd as [| c d Hc Hd IH]; simpl.
  - apply while_isdigit_stop, Hl.
  - rewrite while_isdigit_first by exact Hc.
    rewrite while_isdigit_cons, IH. reflexivity.
Qed.

Lemma digits1_first_char d l : digits1 d -> isdigit (first_char (d ++ l)) = true.
Proof. intros [Hne Hd]. destruct Hd; [congruence | assumption]. Qed.

Lemma lexNumber_fraction_word frac l :
  frac = [] \/ (exists f, frac = "."%char :: f /\ digits1 f) ->
  isdigit (first_char l) = false -> Ascii.eqb (first_char l) "." = false ->
  lexNumber_fraction (frac ++ l) 0 = length frac.
Proof.
  intros Hfrac Hdig Hdot.
  unfold lexNumber_fraction. destruct Hfrac as [-> | (f & -> & _ & Hf)].
  - simpl. unfold first_char in Hdot. rewrite Hdot. reflexivity.
  - simpl. rewrite while_isdigit_cons, while_isdigit_run by assumption.
    reflexivity.
Qed.

Lemma lexNumber_exponent_e tail :
  lexNumber_exponent ("e"%char :: tail) 0 =
  Tokenizer.while_isdigit ("e"%char :: tail)
    (if Ascii.eqb (first_char tail) "-" || Ascii.eqb (first_char tail) "+"
     then 2 else 1).
Proof. reflexivity. Qed.

Lemma lexNumber_exponent_word exp l :
  exp = [] \/ (exists s e, exp = "e"%char :: s ++ e /\ sign s /\ digits1 e) ->
  continues_number (first_char l) = false ->
  lexNumber_exponent (exp ++ l) 0 = length exp.
Proof.
  unfold continues_number. intros Hexp Hl.
  apply orb_false_iff in Hl as [Hl He]. apply orb_false_iff in Hl as [Hdig Hdot].
  destruct Hexp as [-> | (s & e & -> & Hs & He1)].
  - unfold lexNumber_exponent. simpl. unfold first_char in He. rewrite He.
    reflexivity.
  - pose proof He1 as [_ Hed].
    assert (Hrun : Tokenizer.while_isdigit (e ++ l) 0 = length e)
      by (apply while_isdigit_run; assumption).
    cbn [app]. rewrite <- app_assoc, lexNumber_exponent_e.
    destruct Hs as [-> | [-> | ->]]; cbn [app length].
    + (* no sign: the next character is a digit *)
      pose proof (digits1_first_char e l He1) as Hfirst.
      destruct (Ascii.eqb_spec (first_char (e ++ l)) "-") as [E | _];
        [rewrite E in Hfirst; discriminate |].
      destruct (Ascii.eqb_spec (first_char (e ++ l)) "+") as [E | _];
        [rewrite E in Hfirst; discriminate |].
      cbn [orb]. rewrite while_isdigit_cons, Hrun. reflexivity.
    + change (first_char ("+"%char :: e ++ l)) with "+"%char.
      simpl (_ || _). cbv iota.
      rewrite !while_isdigit_cons, Hrun. reflexivity.
    + change (first_char ("-"%char :: e ++ l)) with "-"%char.
      simpl (_ || _). cbv iota.
      rewrite !while_isdigit_cons, Hrun. reflexivity.
Qed.

Lemma first_char_not_continuing_app frac l :
  frac = [] \/ (exists f, frac = "."%char :: f /\ digits1 f) ->
  isdigit (first_char l) = false ->
  isdigit (first_char (frac ++ l)) = false.
Proof. intros [-> | (f & -> & _)] Hl; [exact Hl | reflexivity]. Qed.

Lemma first_char_exponent_app exp l :
  exp = [] \/ (exists s e, exp = "e"%char :: s ++ e /\ sign s /\ digits1 e) ->
  continues_number (first_char l) = false ->
  isdigit (first_char (exp ++ l)) = false
  /\ Ascii.eqb (first_char (exp ++ l)) "." = false.
Proof.
  unfold continues_number. intros Hexp Hl.
  apply orb_false_iff in Hl as [Hl He]. apply orb_false_iff in Hl as [Hdig Hdot].
  destruct Hexp as [-> | (s & e & -> & _)]; [auto | split; reflexivity].
Qed.

(** [lexNumber] on a word of the grammar of the specification, followed by
    a character that does not continue a number (or by the end of the
    string), stops right after the word. *)
Lemma lexNumber_word w l :
  number_shape digits1 w -> continues_number (first_char l) = false ->
  Tokenizer.lexNumber (w ++ l) 0 = length w.
Proof.
  intros (int & frac & exp & -> & Hint & Hfrac & Hexp) Hl.
  destruct (first_char_exponent_app exp l Hexp Hl) as [Hd1 Hdot1].
  rewrite lexNumber_phases, <- !app_assoc.
  rewrite while_isdigit_run; [| apply Hint |].
  2: { apply first_char_not_continuing_app; assumption. }
  rewrite <- (Nat.add_0_r (length int)), lexNumber_fraction_app.
  rewrite lexNumber_fraction_word by assumption.
  rewrite (app_assoc int frac), <- length_app.
  rewrite <- (Nat.add_0_r (length (int ++ frac))), lexNumber_exponent_app.
  rewrite lexNumber_exponent_word by assumption.
  rewrite !length_app. lia.
Qed.

(** ** [lex], character by character *)

Lemma scanned_frame k src it tk :
  scanned (Tokenizer.lex_for k src it tk) =
  (Tokenizer.tokens_ tk
     ++ (scanned (Tokenizer.lex_for k src it (Tokenizer.new EmptyString))).1,
   Tokenizer.anErrorOccurred tk
     || (scanned (Tokenizer.lex_for k src it (Tokenizer.new EmptyString))).2).
Proof.
  unfold scanned. destruct (lex_for_frame k src it tk) as [-> ->]. reflexivity.
Qed.

Lemma scan_lex_for line :
  scan line =
  scanned (Tokenizer.lex_for (length (list_ascii_of_string line))
             (list_ascii_of_string line) 0 (Tokenizer.new EmptyString)).
Proof.
  unfold scan, Tokenizer.lex. rewrite scanned_frame. reflexivity.
Qed.

Lemma scan_behind pre rest tk :
  scanned (Tokenizer.lex_for (length rest) (pre ++ rest) (length pre) tk) =
  (Tokenizer.tokens_ tk ++ (scan (string_of_list_ascii rest)).1,
   Tokenizer.anErrorOccurred tk || (scan (string_of_list_ascii rest)).2).
Proof.
  rewrite <- (Nat.add_0_r (length pre)), lex_for_app, scanned_frame.
  rewrite scan_lex_for, list_ascii_of_string_of_list_ascii. reflexivity.
Qed.

Lemma scan_behind_cons c line tk :
  scanned (Tokenizer.lex_for (length (list_ascii_of_string line))
             (c :: list_ascii_of_string line) 1 tk) =
  (Tokenizer.tokens_ tk ++ (scan line).1,
   Tokenizer.anErrorOccurred tk || (scan line).2).
Proof.
  rewrite <- (string_of_list_ascii_of_string line) at 3 4.
  apply (scan_behind [c]).
Qed.

Lemma operator_kind_not_digit c k : operator_kind c = Some k -> isdigit c = false.
Proof.
  intros H. unfold operator_kind in H.
  destruct (Ascii.eqb_spec c "+") as [-> | _]; [reflexivity |].
  destruct (Ascii.eqb_spec c "-") as [-> | _]; [reflexivity |].
  destruct (Ascii.eqb_spec c "*") as [-> | _]; [reflexivity |].
  destruct (Ascii.eqb_spec c "/") as [-> | _]; [reflexivity | discriminate].
Qed.

Lemma operator_kind_not_isspace c k : operator_kind c = Some k -> isspace c = false.
Proof.
  intros H. unfold operator_kind in H.
  destruct (Ascii.eqb_spec c "+") as [-> | _]; [reflexivity |].
  destruct (Ascii.eqb_spec c "-") as [-> | _]; [reflexivity |].
  destruct (Ascii.eqb_spec c "*") as [-> | _]; [reflexivity |].
  destruct (Ascii.eqb_spec c "/") as [-> | _]; [reflexivity | discriminate].
Qed.

Lemma scan_empty : scan EmptyString = ([eof_token], false).
Proof. reflexivity. Qed.

Lemma scan_cons_lex_for c line :
  scan (String c line) =
  scanned (Tokenizer.lex_for (S (length (list_ascii_of_string line)))
             (c :: list_ascii_of_string line) 0 (Tokenizer.new EmptyString)).
Proof. apply scan_lex_for. Qed.

Lemma scan_isspace c line : isspace c = true -> scan (String c line) = scan line.
Proof.
  intros Hc. rewrite scan_cons_lex_for, lex_for_S.
  change (0 <? length (c :: list_ascii_of_string line))%nat with true. cbv iota zeta.
  change (Tokenizer.deref (c :: list_ascii_of_string line) 0) with c. rewrite Hc.
  rewrite scan_behind_cons. destruct (scan line). reflexivity.
Qed.

Lemma scan_operator c k line :
  operator_kind c = Some k ->
  scan (String c line) =
  (tok k (String c EmptyString) :: (scan line).1, (scan line).2).
Proof.
  intros Hk. rewrite scan_cons_lex_for, lex_for_S.
  change (0 <? length (c :: list_ascii_of_string line))%nat with true. cbv iota zeta.
  change (Tokenizer.deref (c :: list_ascii_of_string line) 0) with c.
  rewrite (operator_kind_not_digit c k Hk).
  rewrite (operator_kind_not_isspace c k Hk). unfold operator_kind in Hk.
  repeat (destruct (Ascii.eqb c _);
          [injection Hk as <-; rewrite scan_behind_cons; reflexivity |]).
  discriminate.
Qed.

Lemma scan_unexpected c line :
  unexpected_char c -> scan (String c line) = ([], true).
Proof.
  intros (Hs & Hd & Ho). rewrite scan_cons_lex_for, lex_for_S.
  change (0 <? length (c :: list_ascii_of_string line))%nat with true. cbv iota zeta. change (Tokenizer.deref (c :: list_ascii_of_string line) 0) with c.
  rewrite Hs, Hd. unfold operator_char in Ho.
  apply orb_false_iff in Ho as [Ho H4]. apply orb_false_iff in Ho as [Ho H3].
  apply orb_false_iff in Ho as [H1 H2]. rewrite H1, H2, H3, H4. reflexivity.
Qed.

Lemma list_ascii_of_string_append a b :
  list_ascii_of_string (String.append a b) =
  list_ascii_of_string a ++ list_ascii_of_string b.
Proof. induction a as [| c a IH]; simpl; [reflexivity | rewrite IH; reflexivity]. Qed.

(** ** Number literals *)

Lemma number_word_first w l :
  number_shape digits1 w -> isdigit (Tokenizer.deref (w ++ l) 0) = true.
Proof.
  intros (int & frac & exp & -> & Hint & _). rewrite <- !app_assoc.
  apply (digits1_first_char int _ Hint).
Qed.

Lemma number_word_length w : number_shape digits1 w -> 0 < length w.
Proof.
  intros (int & frac & exp & -> & [Hne _] & _).
  destruct int; [congruence | simpl; lia].
Qed.

(** The scanning loop at a word of the grammar: one [number] token with
    the word for its lexeme, and the loop goes on one character after the
    one that follows the word. *)
Lemma lex_for_number_word k w l tk :
  number_shape digits1 w -> continues_number (first_char l) = false ->
  Tokenizer.lex_for (S k) (w ++ l) 0 tk =
  Tokenizer.lex_for k (w ++ l) (S (length w))
    (Tokenizer.emplace_back TokenType.number (string_of_list_ascii w) tk).
Proof.
  intros Hw Hl. rewrite lex_for_S.
  pose proof (number_word_length w Hw) as Hlen.
  rewrite (proj2 (Nat.ltb_lt 0 (length (w ++ l)))) by (rewrite length_app; lia).
  cbv zeta. pose proof (number_word_first w l Hw) as Hd.
  rewrite (isdigit_not_isspace _ Hd), Hd, lexNumber_word by assumption.
  unfold Tokenizer.range. rewrite drop_0, Nat.sub_0_r, take_app_length.
  reflexivity.
Qed.

Lemma scan_number_list w c rest :
  number_shape digits1 w -> continues_number c = false ->
  scan (string_of_list_ascii (w ++ c :: rest)) =
  (tok TokenType.number (string_of_list_ascii w)
     :: (scan (string_of_list_ascii rest)).1,
   (scan (string_of_list_ascii rest)).2).
Proof.
  intros Hw Hc. rewrite scan_lex_for, list_ascii_of_string_of_list_ascii.
  pose proof (number_word_length w Hw) as Hlen.
  replace (length (w ++ c :: rest)) with (S (length w + length rest))
    by (rewrite length_app; simpl; lia).
  rewrite lex_for_number_word by assumption.
  rewrite (lex_for_bound _ (length rest))
    by (rewrite length_app; simpl; lia).
  replace (w ++ c :: rest) with ((w ++ [c]) ++ rest) by (rewrite <- app_assoc; reflexivity).
  replace (S (length w)) with (length (w ++ [c])) by (rewrite length_app; simpl; lia).
  rewrite scan_behind. reflexivity.
Qed.

Lemma scan_number_end_list w :
  number_shape digits1 w ->
  scan (string_of_list_ascii w) =
  ([tok TokenType.number (string_of_list_ascii w); eof_token], false).
Proof.
  intros Hw. rewrite scan_lex_for, list_ascii_of_string_of_list_ascii.
  pose proof (number_word_length w Hw) as Hlen.
  destruct (length w) as [| k] eqn:Hk; [lia |].
  pose proof (lex_for_number_word k w [] (Tokenizer.new EmptyString) Hw eq_refl) as H.
  rewrite !app_nil_r in H. rewrite H, lex_for_at_end by lia. reflexivity.
Qed.

(** ** Blank lines *)

Lemma scan_blank line :
  Forall (fun c => isspace c = true) (list_ascii_of_string line) ->
  scan line = ([eof_token], false).
Proof.
  induction line as [| c line IH]; intros H; [reflexivity |].
  inversion H as [| ? ? Hc Hrest]; subst.
  rewrite scan_isspace by assumption. apply IH, Hrest.
Qed.

(** ** How [lex] ends *)

Lemma lex_outcome_emplace src k lexeme tk r :
  k <> TokenType.eof ->
  lex_outcome src (Tokenizer.emplace_back k lexeme tk) r -> lex_outcome src tk r.
Proof.
  intros Hk. unfold lex_outcome. destruct (Tokenizer.anErrorOccurred r).
  - intros ((toks & Ht & Hf) & Hd). split; [| exact Hd].
    exists (mkToken k lexeme :: toks). split.
    + rewrite Ht. simpl. rewrite <- app_assoc. reflexivity.
    + constructor; [exact Hk | exact Hf].
  - intros (toks & Ht & Hf & Hd). exists (mkToken k lexeme :: toks).
    split; [| split; [constructor; [exact Hk | exact Hf] | exact Hd]].
    rewrite Ht. simpl. rewrite <- app_assoc. reflexivity.
Qed.

Lemma lex_outcome_eof src tk :
  Tokenizer.anErrorOccurred tk = false ->
  lex_outcome src tk
    (Tokenizer.emplace_back TokenType.eof (String zero EmptyString) tk).
Proof.
  intros Hq. unfold lex_outcome.
  change (Tokenizer.anErrorOccurred (Tokenizer.emplace_back _ _ tk))
    with (Tokenizer.anErrorOccurred tk).
  rewrite Hq. exists []. repeat split. constructor.
Qed.

Lemma lex_for_outcome k src it tk :
  Tokenizer.anErrorOccurred tk = false ->
  lex_outcome src tk (Tokenizer.lex_for k src it tk).
Proof.
  revert it tk. induction k as [| k IH]; intros it tk Hq.
  - apply lex_outcome_eof, Hq.
  - rewrite lex_for_S. destruct (it <? length src) eqn:Hlt.
    2: { apply lex_outcome_eof, Hq. }
    apply Nat.ltb_lt in Hlt. cbv zeta.
    destruct (isspace _) eqn:Hs; [apply IH, Hq |].
    destruct (isdigit _) eqn:Hd.
    { eapply lex_outcome_emplace; [| apply IH, Hq]. discriminate. }
    destruct (Ascii.eqb _ "+") eqn:H1.
    { eapply lex_outcome_emplace; [| apply IH, Hq]. discriminate. }
    destruct (Ascii.eqb _ "-") eqn:H2.
    { eapply lex_outcome_emplace; [| apply IH, Hq]. discriminate. }
    destruct (Ascii.eqb _ "*") eqn:H3.
    { eapply lex_outcome_emplace; [| apply IH, Hq]. discriminate. }
    destruct (Ascii.eqb _ "/") eqn:H4.
    { eapply lex_outcome_emplace; [| apply IH, Hq]. discriminate. }
    unfold lex_outcome. simpl. split.
    + exists []. rewrite app_nil_r. split; [reflexivity | constructor].
    + exists it, (Tokenizer.deref src it). split; [reflexivity |].
      split; [apply deref_lt, Hlt |].
      unfold unexpected_char, operator_char. rewrite Hs, Hd, H1, H2, H3, H4. auto.
Qed.

Lemma lex_for_lexeme_fixed k src it tk :
  Forall lexeme_fixed (Tokenizer.tokens_ tk) ->
  Forall lexeme_fixed (Tokenizer.tokens_ (Tokenizer.lex_for k src it tk)).
Proof.
  assert (Hsnoc : forall tk kind lexeme,
             Forall lexeme_fixed (Tokenizer.tokens_ tk) ->
             fixed_lexeme kind = None \/ fixed_lexeme kind = Some lexeme ->
             Forall lexeme_fixed
               (Tokenizer.tokens_ (Tokenizer.emplace_back kind lexeme tk))).
  { intros tk' kind lexeme Htk Hk. simpl. apply Forall_app. split; [exact Htk |].
    constructor; [| constructor]. intros l. simpl. destruct Hk as [-> | ->]; congruence. }
  revert it tk. induction k as [| k IH]; intros it tk Htk.
  - apply Hsnoc; auto.
  - rewrite lex_for_S. destruct (it <? length src); [| apply Hsnoc; auto].
    cbv zeta. destruct (isspace _); [apply IH, Htk |].
    destruct (isdigit _); [apply IH, Hsnoc; auto |].
    destruct (Ascii.eqb_spec (Tokenizer.deref src it) "+") as [-> | _];
      [apply IH, Hsnoc; auto |].
    destruct (Ascii.eqb_spec (Tokenizer.deref src it) "-") as [-> | _];
      [apply IH, Hsnoc; auto |].
    destruct (Ascii.eqb_spec (Tokenizer.deref src it) "*") as [-> | _];
      [apply IH, Hsnoc; auto |].
    destruct (Ascii.eqb_spec (Tokenizer.deref src it) "/") as [-> | _];
      [apply IH, Hsnoc; auto |].
    exact Htk.
Qed.

End TokenizerMore.

(** * Further facts about the parser *)

Section ParserMore.

Variable strtod : string -> float.

Local Abbreviation M := PrattParser.M.
Local Abbreviation Returns := PrattParser.Returns.
Local Abbreviation Faults := PrattParser.Faults.
Local Abbreviation OutOfFuel := PrattParser.OutOfFuel.
Local Abbreviation parsePrecedence := (PrattParser.parsePrecedence strtod).
Local Abbreviation while_infix := (PrattParser.while_infix strtod).

(** ** An operator before [eof] *)

Lemma advance_at_end p e0 t :
  PrattParser.peek p = Returns e0 p -> type_ e0 = TokenType.eof ->
  PrattParser.previous p = Returns t p ->
  PrattParser.advance p = Returns t p.
Proof.
  intros Hpeek Heof Hprev. unfold PrattParser.advance, PrattParser.isAtEnd.
  unfold PrattParser.bind. rewrite Hpeek. unfold PrattParser.ret.
  rewrite Heof. simpl. exact Hprev.
Qed.

Lemma prefix_at_end_recurses fuel prec p e0 t :
  rules_registered p ->
  PrattParser.peek p = Returns e0 p -> type_ e0 = TokenType.eof ->
  PrattParser.previous p = Returns t p -> unary_operator (type_ t) = true ->
  parsePrecedence fuel prec p = OutOfFuel.
Proof.
  intros Hr Hpeek Heof Hprev Hop. revert prec.
  induction fuel as [| fuel IH]; intros prec; [reflexivity |].
  rewrite parsePrecedence_S. unfold PrattParser.bind at 1.
  rewrite (advance_at_end p e0 t Hpeek Heof Hprev).
  rewrite (bind_getRule _ _ _ Hr).
  assert (Hpre : prefix (rule_table (type_ t)) = Some fn_unary)
    by (destruct (type_ t); try discriminate Hop; reflexivity).
  rewrite Hpre. unfold PrattParser.bind at 1. simpl.
  unfold PrattParser.unary. rewrite (bind_previous _ _ _ Hprev).
  unfold PrattParser.bind at 1. rewrite IH. reflexivity.
Qed.

Lemma prefix_at_end_rejected fuel prec p e0 t :
  rules_registered p ->
  PrattParser.peek p = Returns e0 p -> type_ e0 = TokenType.eof ->
  PrattParser.previous p = Returns t p ->
  prefix (rule_table (type_ t)) = None ->
  parsePrecedence (S fuel) prec p =
  PrattParser.bind (PrattParser.emitError (ExpectExpression (lexeme_ t)))
    (fun _ => PrattParser.ret nullptr) p.
Proof.
  intros Hr Hpeek Heof Hprev Hop.
  rewrite parsePrecedence_S. unfold PrattParser.bind at 1.
  rewrite (advance_at_end p e0 t Hpeek Heof Hprev).
  rewrite (bind_getRule _ _ _ Hr), Hop. reflexivity.
Qed.

(** ** Where a parse stops *)

Lemma while_infix_stops fuel :
  (forall prec p e p',
      rules_registered p ->
      parsePrecedence fuel prec p = Returns e p' ->
      (e = nullptr /\ PrattParser.anErrorOccurred p' = true)
      \/ exists t, PrattParser.peek p' = Returns t p'
                   /\ precedence (rule_table (type_ t)) < prec)
  /\ (forall prec expr p e p',
      rules_registered p ->
      while_infix fuel prec expr p = Returns e p' ->
      exists t, PrattParser.peek p' = Returns t p'
                /\ precedence (rule_table (type_ t)) < prec).
Proof.
  induction fuel as [| fuel [IHp IHw]]; [split; intros; discriminate |].
  split.
  - intros prec p e p' Hr H. rewrite parsePrecedence_S in H.
    apply bind_Returns in H as (token & p1 & Hadv & H).
    destruct (later_state_advance p token p1 Hr Hadv) as [L1 Hprev].
    pose proof (later_state_registered _ _ L1) as Hr1.
    rewrite (bind_getRule _ _ _ Hr1) in H.
    destruct (prefix (rule_table (type_ token))) as [fn |].
    + apply bind_Returns in H as (expr & p2 & Hcall & H). right.
      apply (IHw prec expr p2 e p'); [| exact H].
      destruct fn; simpl in Hcall.
      * unfold PrattParser.unary in Hcall.
        rewrite (bind_previous _ _ _ Hprev) in Hcall.
        apply bind_Returns in Hcall as (rhs & p3 & Hrhs & Hret).
        injection Hret as _ <-.
        apply (proj1 (parser_trees strtod fuel)) in Hrhs as (L2 & _); [| exact Hr1].
        exact (later_state_registered _ _ L2).
      * unfold PrattParser.primary in Hcall.
        rewrite (bind_previous _ _ _ Hprev) in Hcall.
        destruct (bool_decide _).
        -- injection Hcall as _ <-. exact Hr1.
        -- apply bind_Returns in Hcall as (u & p3 & Hemit & Hret).
           injection Hret as _ <-. injection Hemit as _ <-. exact Hr1.
    + apply bind_Returns in H as (u & p2 & Hemit & H). injection H as <- <-.
      injection Hemit as _ <-. left. auto.
  - intros prec expr p e p' Hr H. rewrite while_infix_S in H.
    apply bind_Returns in H as (next & p0 & Hpeek & H).
    pose proof (peek_Returns _ _ _ Hpeek) as ->.
    rewrite (bind_getRule _ _ _ Hr) in H.
    destruct (prec <=? precedence (rule_table (type_ next))) eqn:Hle.
    2: { injection H as <- <-. exists next. split; [exact Hpeek |].
         apply Z.leb_gt in Hle. exact Hle. }
    apply bind_Returns in H as (token & p1 & Hadv & H).
    destruct (later_state_advance p token p1 Hr Hadv) as [L1 Hprev].
    pose proof (later_state_registered _ _ L1) as Hr1.
    rewrite (bind_getRule _ _ _ Hr1) in H.
    destruct (infix (rule_table (type_ token))) as [[] |]; [| discriminate].
    apply bind_Returns in H as (expr' & p2 & Hcall & H).
    apply (IHw prec expr' p2 e p'); [| exact H].
    simpl in Hcall. unfold PrattParser.binary in Hcall.
    rewrite (bind_previous _ _ _ Hprev) in Hcall.
    rewrite (bind_getRule _ _ _ Hr1) in Hcall.
    apply bind_Returns in Hcall as (rhs & p3 & Hrhs & Hret).
    injection Hret as _ <-.
    apply (proj1 (parser_trees strtod fuel)) in Hrhs as (L2 & _); [| exact Hr1].
    exact (later_state_registered _ _ L2).
Qed.

(** ** The cursor stays inside the tokens *)

Section Cursor.

Variable T : list Token.
Hypothesis T_fits : Z.of_nat (length T) <= 2 ^ 32.

Lemma in_range_bind {A B : Type} (P Q : PrattParser.t -> Prop)
    (m : M A) (k : A -> M B) p :
  in_range P (m p) ->
  (forall a p', m p = Returns a p' -> P p' -> in_range Q (k a p')) ->
  in_range Q (PrattParser.bind m k p).
Proof.
  unfold PrattParser.bind. destruct (m p) as [a p' | [] |]; simpl; auto.
Qed.

Lemma in_range_weaken {A : Type} (P Q : PrattParser.t -> Prop)
    (o : PrattParser.Outcome A) :
  (forall p, P p -> Q p) -> in_range P o -> in_range Q o.
Proof. intros HPQ. destruct o as [a p' | [] |]; simpl; auto. Qed.

Lemma at_index_in_range (i : nat) p t :
  PrattParser.tokens_ p = T -> T !! i = Some t ->
  PrattParser.at_index (Z.of_nat i) p = Returns t p.
Proof.
  intros HT Hi. unfold PrattParser.at_index. rewrite HT.
  pose proof (lookup_lt_Some _ _ _ Hi) as Hlt.
  rewrite (proj2 (Z.ltb_lt _ _)) by lia.
  rewrite Nat2Z.id, Hi. reflexivity.
Qed.

Lemma cursor_ok_peek p :
  cursor_ok T p -> exists t, PrattParser.peek p = Returns t p.
Proof.
  intros (_ & HT & c & Hc & _ & (j & t & Hcj & Hj & _) & _).
  destruct (lookup_lt_is_Some_2 T c) as [tc Htc].
  { pose proof (lookup_lt_Some _ _ _ Hj). lia. }
  exists tc. unfold PrattParser.peek. rewrite Hc.
  apply at_index_in_range; assumption.
Qed.

Lemma cursor_in_previous p :
  cursor_in T p -> exists t, PrattParser.previous p = Returns t p.
Proof.
  intros [(_ & HT & c & Hc & _ & (j & t & Hcj & Hj & _) & _) Hpos].
  pose proof (lookup_lt_Some _ _ _ Hj) as Hlt.
  destruct (lookup_lt_is_Some_2 T (c - 1)) as [tc Htc]; [lia |].
  exists tc. unfold PrattParser.previous. rewrite Hc.
  replace (uint32 (Z.of_nat c - 1)) with (Z.of_nat (c - 1)).
  - apply at_index_in_range; assumption.
  - unfold uint32. rewrite Z.mod_small by lia. lia.
Qed.

Lemma cursor_ok_advance p :
  cursor_ok T p -> in_range (cursor_in T) (PrattParser.advance p).
Proof.
  intros Hok. destruct (cursor_ok_peek p Hok) as [next Hpeek].
  pose proof Hok as (Hr & HT & c & Hc & Hbefore & (j & t & Hcj & Hj & Heof) & Hzero).
  pose proof (lookup_lt_Some _ _ _ Hj) as Hlt.
  assert (Hnext : T !! c = Some next).
  { unfold PrattParser.peek, PrattParser.at_index in Hpeek. rewrite Hc, HT in Hpeek.
    destruct (_ <? _); [| discriminate]. rewrite Nat2Z.id in Hpeek.
    destruct (T !! c); [congruence | discriminate]. }
  unfold PrattParser.advance, PrattParser.isAtEnd.
  unfold PrattParser.bind at 1. unfold PrattParser.bind at 1.
  rewrite Hpeek. unfold PrattParser.ret.
  destruct (bool_decide_reflect (type_ next = TokenType.eof)) as [Hend | Hmid]; simpl.
  - (* at the end: the cursor stays *)
    assert (Hpos : (1 <= c)%nat).
    { destruct c; [| lia]. destruct (Hzero eq_refl) as (t0 & Ht0 & Hne).
      rewrite Hnext in Ht0. injection Ht0 as <-. contradiction. }
    assert (Hin : cursor_in T p) by (split; [exact Hok | lia]).
    destruct (cursor_in_previous p Hin) as [tp Hprev].
    unfold PrattParser.bind. simpl. rewrite Hprev. exact Hin.
  - (* the cursor moves on *)
    assert (Hcj' : (S c <= j)%nat).
    { destruct (decide (c = j)) as [-> | ?]; [| lia].
      rewrite Hj in Hnext. injection Hnext as <-. contradiction. }
    unfold PrattParser.bind. simpl.
    set (p' := {| PrattParser.rules_ := PrattParser.rules_ p;
                  PrattParser.current_ := uint32 (PrattParser.current_ p + 1);
                  PrattParser.tokens_ := PrattParser.tokens_ p;
                  PrattParser.base := PrattParser.base p |}).
    assert (Hcur : PrattParser.current_ p' = Z.of_nat (S c)).
    { simpl. rewrite Hc. unfold uint32. rewrite Z.mod_small by lia. lia. }
    assert (Hin : cursor_in T p').
    { split; [| rewrite Hcur; lia].
      split; [exact Hr |]. split; [exact HT |]. exists (S c).
      split; [exact Hcur |]. split.
      - rewrite (take_S_r _ _ _ Hnext). apply Forall_app. split; [exact Hbefore |].
        constructor; [exact Hmid | constructor].
      - split; [exists j, t; auto | discriminate]. }
    destruct (cursor_in_previous p' Hin) as [tp Hprev].
    rewrite Hprev. exact Hin.
Qed.

Lemma cursor_in_getRule {B : Type} k (f : ParseRule -> M B) (P : PrattParser.t -> Prop) p :
  cursor_ok T p -> in_range P (f (rule_table k) p) ->
  in_range P (PrattParser.bind (PrattParser.getRule k) f p).
Proof. intros (Hr & _) H. rewrite (bind_getRule _ _ _ Hr). exact H. Qed.

Lemma cursor_in_emitError d p :
  cursor_in T p -> in_range (cursor_in T) (PrattParser.emitError d p).
Proof. intros H. exact H. Qed.

Lemma cursor_in_ok p : cursor_in T p -> cursor_ok T p.
Proof. intros [H _]. exact H. Qed.

Lemma parser_in_range fuel :
  (forall prec p, cursor_ok T p ->
      in_range (cursor_in T) (parsePrecedence fuel prec p))
  /\ (forall prec expr p, cursor_in T p ->
      in_range (cursor_in T) (while_infix fuel prec expr p)).
Proof.
  induction fuel as [| fuel [IHp IHw]]; [split; intros; exact I |].
  split.
  - intros prec p Hok. rewrite parsePrecedence_S.
    eapply in_range_bind; [apply cursor_ok_advance, Hok |].
    intros token p1 _ Hin. apply cursor_in_getRule; [apply cursor_in_ok, Hin |].
    destruct (prefix (rule_table (type_ token))) as [[] |].
    + eapply in_range_bind; [| intros expr p2 _ Hin2; apply IHw, Hin2].
      simpl. unfold PrattParser.unary.
      destruct (cursor_in_previous p1 Hin) as [op Hprev].
      rewrite (bind_previous _ _ _ Hprev).
      eapply in_range_bind; [apply IHp, cursor_in_ok, Hin |].
      intros rhs p3 _ Hin3. exact Hin3.
    + eapply in_range_bind; [| intros expr p2 _ Hin2; apply IHw, Hin2].
      simpl. unfold PrattParser.primary.
      destruct (cursor_in_previous p1 Hin) as [op Hprev].
      rewrite (bind_previous _ _ _ Hprev).
      destruct (bool_decide _); exact Hin.
    + exact Hin.
  - intros prec expr p Hin. rewrite while_infix_S.
    destruct (cursor_ok_peek p (cursor_in_ok p Hin)) as [next Hpeek].
    unfold PrattParser.bind at 1. rewrite Hpeek.
    apply cursor_in_getRule; [apply cursor_in_ok, Hin |].
    destruct (prec <=? _); [| exact Hin].
    eapply in_range_bind; [apply cursor_ok_advance, cursor_in_ok, Hin |].
    intros token p1 _ Hin1. apply cursor_in_getRule; [apply cursor_in_ok, Hin1 |].
    destruct (infix (rule_table (type_ token))) as [[] |]; [| exact I].
    eapply in_range_bind; [| intros expr' p2 _ Hin2; apply IHw, Hin2].
    simpl. unfold PrattParser.binary.
    destruct (cursor_in_previous p1 Hin1) as [op Hprev].
    rewrite (bind_previous _ _ _ Hprev).
    apply cursor_in_getRule; [apply cursor_in_ok, Hin1 |].
    eapply in_range_bind; [apply IHp, cursor_in_ok, Hin1 |].
    intros rhs p3 _ Hin3. exact Hin3.
Qed.

End Cursor.

End ParserMore.

(** ** The parser on the grammar *)

Section Grammar.

Variable strtod : string -> float.
Variable L : string -> Prop.
Variable T : list Token.
Hypothesis T_fits : Z.of_nat (length T) < 2 ^ 32.

Local Abbreviation Returns := PrattParser.Returns.

Lemma drop_cons_inv (c : nat) (t : Token) rest :
  drop c T = t :: rest -> T !! c = Some t /\ drop (S c) T = rest.
Proof.
  intros H. split.
  - rewrite <- (Nat.add_0_r c), <- lookup_drop, H. reflexivity.
  - replace (S c) with (c + 1)%nat by lia. rewrite <- drop_drop, H. reflexivity.
Qed.

Lemma drop_app_inv (c : nat) (seg rest : list Token) :
  drop c T = seg ++ rest -> drop (c + length seg) T = rest.
Proof.
  intros H. rewrite <- drop_drop, H, drop_app_length. reflexivity.
Qed.

Lemma rules_registered_at c : rules_registered (parser_at T c).
Proof. reflexivity. Qed.

Lemma at_index_at (i c : nat) t :
  T !! i = Some t ->
  PrattParser.at_index (Z.of_nat i) (parser_at T c) = Returns t (parser_at T c).
Proof.
  intros Hi. unfold PrattParser.at_index. simpl.
  pose proof (lookup_lt_Some _ _ _ Hi) as Hlt.
  rewrite (proj2 (Z.ltb_lt _ _)) by lia.
  rewrite Nat2Z.id, Hi. reflexivity.
Qed.

Lemma peek_at c t rest :
  drop c T = t :: rest ->
  PrattParser.peek (parser_at T c) = Returns t (parser_at T c).
Proof.
  intros H. apply drop_cons_inv in H as [H _]. apply (at_index_at c c t H).
Qed.

Lemma previous_at c t rest :
  drop c T = t :: rest ->
  PrattParser.previous (parser_at T (S c)) = Returns t (parser_at T (S c)).
Proof.
  intros H. apply drop_cons_inv in H as [H _].
  pose proof (lookup_lt_Some _ _ _ H) as Hlt.
  unfold PrattParser.previous. simpl PrattParser.current_.
  replace (uint32 (Z.of_nat (S c) - 1)) with (Z.of_nat c).
  - apply (at_index_at c (S c) t H).
  - unfold uint32. rewrite Z.mod_small by lia. lia.
Qed.

Lemma advance_at c t rest :
  drop c T = t :: rest -> type_ t <> TokenType.eof ->
  PrattParser.advance (parser_at T c) = Returns t (parser_at T (S c)).
Proof.
  intros H Hne. pose proof (peek_at c t rest H) as Hpeek.
  pose proof (previous_at c t rest H) as Hprev.
  pose proof (lookup_lt_Some _ _ _ (proj1 (drop_cons_inv c t rest H))) as Hlt.
  assert (Hinc : PrattParser.increment_current (parser_at T c) =
                 Returns tt (parser_at T (S c))).
  { unfold PrattParser.increment_current, parser_at. simpl. do 2 f_equal.
    unfold uint32. rewrite Z.mod_small by lia. lia. }
  unfold PrattParser.advance, PrattParser.isAtEnd, PrattParser.bind.
  rewrite Hpeek. unfold PrattParser.ret.
  rewrite bool_decide_eq_false_2 by exact Hne. cbn [negb].
  rewrite Hinc. exact Hprev.
Qed.


(** *** One step of the parser at each kind of token *)

Lemma parsePrecedence_at_number fuel prec c lit rest :
  drop c T = mkToken TokenType.number lit :: rest ->
  PrattParser.parsePrecedence strtod (S fuel) prec (parser_at T c) =
  PrattParser.while_infix strtod fuel prec (LiteralExpr (strtod lit))
    (parser_at T (S c)).
Proof.
  intros H. rewrite parsePrecedence_S. unfold PrattParser.bind at 1.
  rewrite (advance_at c _ rest H) by discriminate.
  rewrite (bind_getRule _ _ _ (rules_registered_at (S c))).
  cbn [type_ rule_table prefix]. unfold PrattParser.bind at 1.
  cbn [PrattParser.call_prefix]. unfold PrattParser.primary.
  rewrite (bind_previous _ _ _ (previous_at c _ rest H)). reflexivity.
Qed.

Lemma parsePrecedence_at_unary fuel prec c t rest :
  drop c T = t :: rest -> additive (type_ t) = true ->
  PrattParser.parsePrecedence strtod (S fuel) prec (parser_at T c) =
  PrattParser.bind
    (PrattParser.bind (PrattParser.parsePrecedence strtod fuel UNARY)
       (fun rhs => PrattParser.ret (UnaryExpr (type_ t) rhs)))
    (fun expr => PrattParser.while_infix strtod fuel prec expr)
    (parser_at T (S c)).
Proof.
  intros H Hk. rewrite parsePrecedence_S. unfold PrattParser.bind at 1.
  rewrite (advance_at c _ rest H) by (destruct (type_ t); discriminate).
  rewrite (bind_getRule _ _ _ (rules_registered_at (S c))).
  assert (Hpre : prefix (rule_table (type_ t)) = Some fn_unary)
    by (destruct (type_ t); try discriminate Hk; reflexivity).
  rewrite Hpre. cbn [PrattParser.call_prefix]. unfold PrattParser.unary.
  unfold PrattParser.bind at 1.
  rewrite (bind_previous _ _ _ (previous_at c _ rest H)). reflexivity.
Qed.

Lemma while_infix_at_lower fuel prec acc c t rest :
  drop c T = t :: rest -> precedence (rule_table (type_ t)) < prec ->
  PrattParser.while_infix strtod (S fuel) prec acc (parser_at T c) =
  Returns acc (parser_at T c).
Proof.
  intros H Hlt. rewrite while_infix_S. unfold PrattParser.bind at 1.
  rewrite (peek_at c t rest H).
  rewrite (bind_getRule _ _ _ (rules_registered_at c)).
  rewrite (proj2 (Z.leb_gt _ _)) by exact Hlt. reflexivity.
Qed.

Lemma while_infix_at_binary fuel prec acc c t rest :
  drop c T = t :: rest -> binary_operator (type_ t) = true ->
  prec <= precedence (rule_table (type_ t)) ->
  PrattParser.while_infix strtod (S fuel) prec acc (parser_at T c) =
  PrattParser.bind
    (PrattParser.bind
       (PrattParser.parsePrecedence strtod fuel
          (precedence (rule_table (type_ t)) + 1))
       (fun rhs => PrattParser.ret (BinaryExpr (type_ t) acc rhs)))
    (fun expr => PrattParser.while_infix strtod fuel prec expr)
    (parser_at T (S c)).
Proof.
  intros H Hk Hle. rewrite while_infix_S. unfold PrattParser.bind at 1.
  rewrite (peek_at c t rest H).
  rewrite (bind_getRule _ _ _ (rules_registered_at c)).
  rewrite (proj2 (Z.leb_le _ _)) by exact Hle.
  unfold PrattParser.bind at 1.
  rewrite (advance_at c _ rest H) by (destruct (type_ t); discriminate).
  rewrite (bind_getRule _ _ _ (rules_registered_at (S c))).
  assert (Hin : infix (rule_table (type_ t)) = Some fn_binary)
    by (destruct (type_ t); try discriminate Hk; reflexivity).
  rewrite Hin. cbn [PrattParser.call_infix]. unfold PrattParser.binary.
  unfold PrattParser.bind at 1.
  rewrite (bind_previous _ _ _ (previous_at c _ rest H)).
  rewrite (bind_getRule _ _ _ (rules_registered_at (S c))). reflexivity.
Qed.

(** *** The same as rules for [parses] and [loops] *)

Lemma parses_number prec c lit rest e c' :
  drop c T = mkToken TokenType.number lit :: rest ->
  loops strtod T prec (LiteralExpr (strtod lit)) (S c) e c' ->
  parses strtod T prec c e c'.
Proof.
  intros H [n Hn]. exists (S n). intros [| fuel] Hle; [lia |].
  rewrite (parsePrecedence_at_number fuel prec c lit rest H). apply Hn. lia.
Qed.

Lemma parses_unary prec c t rest e1 c1 e c' :
  drop c T = t :: rest -> additive (type_ t) = true ->
  parses strtod T UNARY (S c) e1 c1 ->
  loops strtod T prec (UnaryExpr (type_ t) e1) c1 e c' ->
  parses strtod T prec c e c'.
Proof.
  intros H Hk [n1 H1] [n2 H2]. exists (S (n1 `max` n2)).
  intros [| fuel] Hle; [lia |].
  rewrite (parsePrecedence_at_unary fuel prec c t rest H Hk).
  unfold PrattParser.bind. rewrite H1 by lia. unfold PrattParser.ret.
  apply H2. lia.
Qed.

Lemma loops_lower prec acc c t rest :
  drop c T = t :: rest -> precedence (rule_table (type_ t)) < prec ->
  loops strtod T prec acc c acc c.
Proof.
  intros H Hlt. exists 1%nat. intros [| fuel] Hle; [lia |].
  apply (while_infix_at_lower fuel prec acc c t rest H Hlt).
Qed.

Lemma loops_binary prec acc c t rest e1 c1 e c' :
  drop c T = t :: rest -> binary_operator (type_ t) = true ->
  prec <= precedence (rule_table (type_ t)) ->
  parses strtod T (precedence (rule_table (type_ t)) + 1) (S c) e1 c1 ->
  loops strtod T prec (BinaryExpr (type_ t) acc e1) c1 e c' ->
  loops strtod T prec acc c e c'.
Proof.
  intros H Hk Hle [n1 H1] [n2 H2]. exists (S (n1 `max` n2)).
  intros [| fuel] Hfuel; [lia |].
  rewrite (while_infix_at_binary fuel prec acc c t rest H Hk Hle).
  unfold PrattParser.bind. rewrite H1 by lia. unfold PrattParser.ret.
  apply H2. lia.
Qed.


(** *** Operands, products and sums *)

Lemma starts_below_weaken prec prec' l :
  prec <= prec' -> starts_below prec l -> starts_below prec' l.
Proof. intros Hle (t & l' & -> & Hlt). exists t, l'. split; [reflexivity | lia]. Qed.

Lemma type_operator_token k : type_ (operator_token k) = k.
Proof. destruct k; reflexivity. Qed.

Lemma starts_below_operator prec k l :
  precedence (rule_table k) < prec -> starts_below prec (operator_token k :: l).
Proof.
  intros H. exists (operator_token k), l. rewrite type_operator_token. auto.
Qed.

Lemma additive_precedence k : additive k = true -> precedence (rule_table k) = TERM.
Proof. destruct k; try discriminate; reflexivity. Qed.

Lemma multiplicative_precedence k :
  multiplicative k = true -> precedence (rule_table k) = FACTOR.
Proof. destruct k; try discriminate; reflexivity. Qed.

Lemma additive_binary k : additive k = true -> binary_operator k = true.
Proof. destruct k; try discriminate; reflexivity. Qed.

Lemma multiplicative_binary k : multiplicative k = true -> binary_operator k = true.
Proof. destruct k; try discriminate; reflexivity. Qed.

Lemma parses_signs ss lit prec c rest e c' :
  Forall (fun k => additive k = true) ss ->
  drop c T = (operator_token <$> ss) ++ mkToken TokenType.number lit :: rest ->
  starts_below UNARY rest ->
  loops strtod T prec (foldr UnaryExpr (LiteralExpr (strtod lit)) ss)
    (c + length ss + 1) e c' ->
  parses strtod T prec c e c'.
Proof.
  intros Hss. revert prec c e c'.
  induction Hss as [| s ss Hs Hss IH]; intros prec c e c' Hdrop Hrest Hloop.
  - simpl in *. replace (c + 0 + 1)%nat with (S c) in Hloop by lia.
    eapply parses_number; eassumption.
  - cbn [fmap list_fmap app foldr length] in *.
    pose proof (drop_cons_inv _ _ _ Hdrop) as [_ Hnext].
    replace (c + S (length ss) + 1)%nat with (S c + length ss + 1)%nat in Hloop by lia.
    eapply (parses_unary prec c (operator_token s)); [exact Hdrop | | | ].
    + rewrite type_operator_token. exact Hs.
    + apply (IH UNARY (S c)); [exact Hnext | exact Hrest |].
      destruct Hrest as (t & l' & -> & Hlt).
      eapply loops_lower; [| exact Hlt].
      replace (S c + length ss + 1)%nat
        with (S c + length ((operator_token <$> ss) ++ [mkToken TokenType.number lit]))%nat
        by (rewrite length_app, length_fmap; simpl; lia).
      apply drop_app_inv. rewrite <- app_assoc. exact Hnext.
    + rewrite type_operator_token. exact Hloop.
Qed.

Lemma parses_operand o prec c rest e c' :
  operand_ok L o ->
  drop c T = operand_tokens o ++ rest ->
  starts_below UNARY rest ->
  loops strtod T prec (operand_tree strtod o) (c + length (operand_tokens o)) e c' ->
  parses strtod T prec c e c'.
Proof.
  intros [Hok _] Hdrop Hrest Hloop. unfold operand_tokens in *.
  rewrite <- app_assoc in Hdrop.
  rewrite length_app, length_fmap in Hloop. simpl in Hloop.
  rewrite Nat.add_assoc in Hloop.
  eapply parses_signs; eassumption.
Qed.

Lemma loops_after prec acc c seg rest :
  drop c T = seg ++ rest -> starts_below prec rest ->
  loops strtod T prec acc (c + length seg) acc (c + length seg).
Proof.
  intros Hdrop (t & l' & -> & Hlt).
  eapply loops_lower; [apply drop_app_inv; exact Hdrop | exact Hlt].
Qed.

Lemma loops_product_chain items acc prec c rest e c' :
  Forall (fun ko => multiplicative ko.1 = true /\ operand_ok L ko.2) items ->
  prec <= FACTOR ->
  drop c T =
    flat_map (fun ko => operator_token ko.1 :: operand_tokens ko.2) items ++ rest ->
  starts_below UNARY rest ->
  loops strtod T prec
    (fold_left (fun acc ko => BinaryExpr ko.1 acc (operand_tree strtod ko.2))
       items acc)
    (c + length (flat_map (fun ko => operator_token ko.1 :: operand_tokens ko.2)
                   items)) e c' ->
  loops strtod T prec acc c e c'.
Proof.
  intros Hitems Hprec. revert acc c.
  induction Hitems as [| [k o] items [Hk Ho] Hitems IH];
    intros acc c Hdrop Hrest Hloop.
  - simpl in Hloop. rewrite Nat.add_0_r in Hloop. exact Hloop.
  - cbn [flat_map fold_left fst snd app] in *.
    pose proof (drop_cons_inv _ _ _ Hdrop) as [_ Hnext].
    rewrite <- app_assoc in Hnext.
    set (tail := flat_map (fun ko => operator_token ko.1 :: operand_tokens ko.2) items)
      in *.
    assert (Htail : starts_below UNARY (tail ++ rest)).
    { subst tail. destruct Hitems as [| [k' o'] items' [Hk' _] _]; [exact Hrest |].
      apply starts_below_operator.
      rewrite (multiplicative_precedence _ Hk'). unfold FACTOR, UNARY. lia. }
    eapply (loops_binary prec acc c (operator_token k)); [exact Hdrop | | | | ].
    + rewrite type_operator_token. apply multiplicative_binary, Hk.
    + rewrite type_operator_token, (multiplicative_precedence _ Hk). exact Hprec.
    + rewrite type_operator_token, (multiplicative_precedence _ Hk).
      eapply (parses_operand o); [exact Ho | exact Hnext | exact Htail |].
      eapply loops_after; [exact Hnext |].
      eapply starts_below_weaken; [| exact Htail]. unfold FACTOR, UNARY. lia.
    + rewrite type_operator_token. apply IH.
      * apply drop_app_inv. exact Hnext.
      * exact Hrest.
      * cbn [length] in Hloop. rewrite length_app in Hloop.
        replace (S c + length (operand_tokens o) + length tail)%nat
          with (c + S (length (operand_tokens o) + length tail))%nat by lia.
        exact Hloop.
Qed.

Lemma parses_product p prec c rest e c' :
  product_ok L p -> prec <= FACTOR ->
  drop c T = product_tokens p ++ rest ->
  starts_below UNARY rest ->
  loops strtod T prec (product_tree strtod p) (c + length (product_tokens p)) e c' ->
  parses strtod T prec c e c'.
Proof.
  destruct p as [o items]. intros [Ho Hitems] Hprec Hdrop Hrest Hloop.
  unfold product_tokens, product_tree in *. cbn [fst snd] in *.
  rewrite <- app_assoc in Hdrop.
  set (tail := flat_map (fun ko => operator_token ko.1 :: operand_tokens ko.2) items)
    in *.
  assert (Htail : starts_below UNARY (tail ++ rest)).
  { subst tail. destruct Hitems as [| [k' o'] items' [Hk' _] _]; [exact Hrest |].
    apply starts_below_operator.
    rewrite (multiplicative_precedence _ Hk'). unfold FACTOR, UNARY. lia. }
  eapply (parses_operand o); [exact Ho | exact Hdrop | exact Htail |].
  eapply loops_product_chain; [exact Hitems | exact Hprec | | exact Hrest |].
  - apply drop_app_inv. exact Hdrop.
  - rewrite length_app, Nat.add_assoc in Hloop. exact Hloop.
Qed.

Lemma loops_sum_chain items acc c rest e c' :
  Forall (fun kp => additive kp.1 = true /\ product_ok L kp.2) items ->
  drop c T =
    flat_map (fun kp => operator_token kp.1 :: product_tokens kp.2) items ++ rest ->
  starts_below TERM rest ->
  loops strtod T TERM
    (fold_left (fun acc kp => BinaryExpr kp.1 acc (product_tree strtod kp.2))
       items acc)
    (c + length (flat_map (fun kp => operator_token kp.1 :: product_tokens kp.2)
                   items)) e c' ->
  loops strtod T TERM acc c e c'.
Proof.
  intros Hitems. revert acc c.
  induction Hitems as [| [k p] items [Hk Hp] Hitems IH];
    intros acc c Hdrop Hrest Hloop.
  - simpl in Hloop. rewrite Nat.add_0_r in Hloop. exact Hloop.
  - cbn [flat_map fold_left fst snd app] in *.
    pose proof (drop_cons_inv _ _ _ Hdrop) as [_ Hnext].
    rewrite <- app_assoc in Hnext.
    set (tail := flat_map (fun kp => operator_token kp.1 :: product_tokens kp.2) items)
      in *.
    assert (Htail : starts_below (TERM + 1) (tail ++ rest)).
    { subst tail. destruct Hitems as [| [k' p'] items' [Hk' _] _].
      - eapply starts_below_weaken; [| exact Hrest]. lia.
      - apply starts_below_operator. rewrite (additive_precedence _ Hk'). lia. }
    eapply (loops_binary TERM acc c (operator_token k)); [exact Hdrop | | | | ].
    + rewrite type_operator_token. apply additive_binary, Hk.
    + rewrite type_operator_token, (additive_precedence _ Hk). lia.
    + rewrite type_operator_token, (additive_precedence _ Hk).
      eapply (parses_product p); [exact Hp | unfold TERM, FACTOR; lia | exact Hnext | |].
      * eapply starts_below_weaken; [| exact Htail]. unfold TERM, UNARY. lia.
      * eapply loops_after; [exact Hnext | exact Htail].
    + rewrite type_operator_token. apply IH.
      * apply drop_app_inv. exact Hnext.
      * exact Hrest.
      * cbn [length] in Hloop. rewrite length_app in Hloop.
        replace (S c + length (product_tokens p) + length tail)%nat
          with (c + S (length (product_tokens p) + length tail))%nat by lia.
        exact Hloop.
Qed.

Lemma parses_sum s c rest :
  sum_ok L s ->
  drop c T = sum_tokens s ++ rest ->
  starts_below TERM rest ->
  parses strtod T TERM c (sum_tree strtod s) (c + length (sum_tokens s)).
Proof.
  destruct s as [p items]. intros [Hp Hitems] Hdrop Hrest.
  unfold sum_tokens, sum_tree in *. cbn [fst snd] in *.
  rewrite <- app_assoc in Hdrop.
  set (tail := flat_map (fun kp => operator_token kp.1 :: product_tokens kp.2) items)
    in *.
  assert (Htail : starts_below UNARY (tail ++ rest)).
  { subst tail. destruct Hitems as [| [k' p'] items' [Hk' _] _].
    - eapply starts_below_weaken; [| exact Hrest]. unfold TERM, UNARY. lia.
    - apply starts_below_operator. rewrite (additive_precedence _ Hk').
      unfold TERM, UNARY. lia. }
  eapply (parses_product p); [exact Hp | unfold TERM, FACTOR; lia | exact Hdrop
                             | exact Htail |].
  eapply loops_sum_chain; [exact Hitems | | exact Hrest |].
  - apply drop_app_inv. exact Hdrop.
  - rewrite length_app, Nat.add_assoc.
    eapply loops_after; [| exact Hrest].
    apply drop_app_inv. exact Hdrop.
Qed.

End Grammar.

(** ** Written sums *)

Section Written.

Variable strtod : string -> float.

(** *** [lex] reads back what was written *)

Lemma scan_number_word w c rest :
  numeric_grammar w -> continues_number c = false ->
  scan (String.append w (String c rest)) =
  (tok TokenType.number w :: (scan rest).1, (scan rest).2).
Proof.
  intros Hw Hc.
  rewrite <- (string_of_list_ascii_of_string (String.append w (String c rest))).
  rewrite list_ascii_of_string_append. cbn [list_ascii_of_string].
  rewrite (scan_number_list _ c _ Hw Hc), !string_of_list_ascii_of_string.
  reflexivity.
Qed.

Lemma scan_number_end w :
  numeric_grammar w -> scan w = ([tok TokenType.number w; eof_token], false).
Proof.
  intros Hw. rewrite <- (string_of_list_ascii_of_string w) at 1.
  rewrite (scan_number_end_list _ Hw), string_of_list_ascii_of_string. reflexivity.
Qed.

Lemma scan_write_operator k line :
  binary_operator k = true ->
  scan (write_operator k line) = (operator_token k :: (scan line).1, (scan line).2).
Proof.
  intros Hk. unfold write_operator.
  rewrite (scan_operator (operator_char_of k) k)
    by (destruct k; try discriminate Hk; reflexivity).
  rewrite (scan_isspace " " line) by reflexivity.
  destruct k; try discriminate Hk; reflexivity.
Qed.

Lemma scan_write_operand o line :
  operand_ok numeric_grammar o ->
  scan (write_operand o line) = (operand_tokens o ++ (scan line).1, (scan line).2).
Proof.
  destruct o as [ss lit]. unfold operand_ok, write_operand, operand_tokens.
  cbn [signs literal]. intros [Hss Hlit].
  induction Hss as [| k ss Hk Hss IH]; cbn [foldr fmap list_fmap app].
  - apply scan_number_word; [exact Hlit | reflexivity].
  - rewrite scan_write_operator by (apply additive_binary, Hk).
    rewrite IH. reflexivity.
Qed.

Lemma scan_write_chain {X : Type} (write : X -> string -> string)
    (toks : X -> list Token) (ok : X -> Prop) (items : list (TokenType.t * X)) line :
  (forall x rest, ok x ->
      scan (write x rest) = (toks x ++ (scan rest).1, (scan rest).2)) ->
  Forall (fun kx => binary_operator kx.1 = true /\ ok kx.2) items ->
  scan (foldr (fun kx rest => write_operator kx.1 (write kx.2 rest)) line items) =
  (flat_map (fun kx => operator_token kx.1 :: toks kx.2) items ++ (scan line).1,
   (scan line).2).
Proof.
  intros Hwrite Hitems.
  induction Hitems as [| [k x] items [Hk Hx] Hitems IH]; cbn [foldr flat_map fst snd].
  - destruct (scan line). reflexivity.
  - rewrite (scan_write_operator k _ Hk), (Hwrite x _ Hx), IH. cbn [fst snd].
    rewrite <- app_assoc. reflexivity.
Qed.

Lemma scan_write_product p line :
  product_ok numeric_grammar p ->
  scan (write_product p line) = (product_tokens p ++ (scan line).1, (scan line).2).
Proof.
  destruct p as [o items]. unfold product_ok, write_product, product_tokens.
  cbn [fst snd]. intros [Ho Hitems].
  rewrite (scan_write_operand o _ Ho).
  rewrite (scan_write_chain write_operand operand_tokens
             (operand_ok numeric_grammar) items line scan_write_operand).
  - cbn [fst snd]. rewrite <- app_assoc. reflexivity.
  - eapply Forall_impl; [exact Hitems |]. intros [k x] [Hk Hx]. split; [| exact Hx].
    apply multiplicative_binary, Hk.
Qed.

Lemma scan_write_sum s line :
  sum_ok numeric_grammar s ->
  scan (write_sum s line) = (sum_tokens s ++ (scan line).1, (scan line).2).
Proof.
  destruct s as [p items]. unfold sum_ok, write_sum, sum_tokens.
  cbn [fst snd]. intros [Hp Hitems].
  rewrite (scan_write_product p _ Hp).
  rewrite (scan_write_chain write_product product_tokens
             (product_ok numeric_grammar) items line scan_write_product).
  - cbn [fst snd]. rewrite <- app_assoc. reflexivity.
  - eapply Forall_impl; [exact Hitems |]. intros [k x] [Hk Hx]. split; [| exact Hx].
    apply additive_binary, Hk.
Qed.

(** *** The value of the tree of a sum *)

Lemma value_of_operand_tree L o :
  operand_ok L o ->
  value_of (operand_tree strtod o) = Some (operand_value strtod o).
Proof.
  destruct o as [ss lit]. unfold operand_ok, operand_tree, operand_value.
  cbn [signs literal]. intros [Hss _].
  induction Hss as [| k ss Hk Hss IH]; [reflexivity |].
  cbn [foldr]. destruct k; try discriminate Hk; cbn [value_of]; rewrite IH; reflexivity.
Qed.

Lemma value_of_chain {X : Type} (tree : X -> Expr) (value : X -> float)
    (items : list (TokenType.t * X)) acc v :
  Forall (fun kx => binary_operator kx.1 = true
                    /\ value_of (tree kx.2) = Some (value kx.2)) items ->
  value_of acc = Some v ->
  value_of (fold_left (fun acc kx => BinaryExpr kx.1 acc (tree kx.2)) items acc) =
  Some (fold_left (fun acc kx => apply_binary kx.1 acc (value kx.2)) items v).
Proof.
  intros Hitems. revert acc v.
  induction Hitems as [| [k x] items [Hk Hx] Hitems IH]; intros acc v Hacc;
    cbn [fold_left fst snd] in *; [exact Hacc |].
  apply IH. cbn [value_of]. rewrite Hacc, Hx.
  destruct k; try discriminate Hk; reflexivity.
Qed.

Lemma value_of_product_tree L p :
  product_ok L p ->
  value_of (product_tree strtod p) = Some (product_value strtod p).
Proof.
  destruct p as [o items]. intros [Ho Hitems]. unfold product_tree, product_value.
  cbn [fst snd] in *.
  apply (value_of_chain (operand_tree strtod) (operand_value strtod)).
  - eapply Forall_impl; [exact Hitems |]. intros [k x] [Hk Hx].
    split; [apply multiplicative_binary, Hk | apply (value_of_operand_tree L), Hx].
  - apply (value_of_operand_tree L), Ho.
Qed.

Lemma value_of_sum_tree L s :
  sum_ok L s -> value_of (sum_tree strtod s) = Some (sum_value strtod s).
Proof.
  destruct s as [p items]. intros [Hp Hitems]. unfold sum_tree, sum_value.
  cbn [fst snd] in *.
  apply (value_of_chain (product_tree strtod) (product_value strtod)).
  - eapply Forall_impl; [exact Hitems |]. intros [k x] [Hk Hx].
    split; [apply additive_binary, Hk | apply (value_of_product_tree L), Hx].
  - apply (value_of_product_tree L), Hp.
Qed.

End Written.

(** ** Further facts about the evaluator *)

Lemma SFopp_involutive s : SpecFloat.SFopp (SpecFloat.SFopp s) = s.
Proof. destruct s as [[] | [] | | [] m e]; reflexivity. Qed.

Lemma opp_involutive (x : float) : (- - x)%float = x.
Proof.
  apply FloatAxioms.Prim2SF_inj. rewrite !FloatAxioms.opp_spec. apply SFopp_involutive.
Qed.

Lemma evaluateExpression_flag e b :
  Erronable.hadError_ (Evaluator.evaluateExpression e b).2 =
  Erronable.hadError_ b || negb (operators_valid e).
Proof.
  revert b. induction e as [| op l IHl r IHr | op r IHr | x]; intros b; simpl.
  - rewrite orb_false_r. reflexivity.
  - specialize (IHl b). destruct (Evaluator.evaluateExpression l b) as [lhs b1].
    specialize (IHr b1). destruct (Evaluator.evaluateExpression r b1) as [rhs b2].
    simpl in *. destruct op; simpl; rewrite ?IHr, ?IHl;
      destruct (Erronable.hadError_ b), (operators_valid l), (operators_valid r);
      reflexivity.
  - specialize (IHr b). destruct (Evaluator.evaluateExpression r b) as [rhs b1].
    simpl in *. destruct op; simpl; rewrite ?IHr;
      destruct (Erronable.hadError_ b), (operators_valid r); reflexivity.
  - rewrite orb_false_r. reflexivity.
Qed.

(** * Further properties of the tokenizer *)

(** X1: for every line, [lex] either leaves the error flag clear and its
    tokens end in the one [eof] token, or raises the flag and returns
    tokens without any [eof] token; the flag is raised only on a line that
    holds a character that is neither blank, digit nor operator. *)
Theorem lex_ends_in_eof_or_one_error (line : string) :
  lex_ending (list_ascii_of_string line) (Tokenizer.lex (Tokenizer.new line)).
Proof.
  pose proof (lex_for_outcome (length (list_ascii_of_string line))
                (list_ascii_of_string line) 0 (Tokenizer.new line) eq_refl) as H.
  unfold Tokenizer.lex.
  change (Tokenizer.source_ (Tokenizer.new line)) with line.
  unfold lex_outcome in H. unfold lex_ending.
  destruct (Tokenizer.anErrorOccurred _).
  - destruct H as ((toks & -> & Htoks) & pos & c & _ & Hpos & Hc).
    split; [exact Htoks | exists pos, c; auto].
  - destruct H as (toks & -> & Htoks & _). exists toks. auto.
Qed.

(** X2: the lexeme of every token but a [number] is fixed by its kind:
    the operator character, or the NUL character for [eof]. *)
Theorem lex_lexemes_fixed_by_kind (line : string) :
  Forall lexeme_fixed (tokens_of line).
Proof.
  unfold tokens_of, Tokenizer.lex. apply lex_for_lexeme_fixed. constructor.
Qed.

Lemma operator_kind_None c : operator_kind c = None -> operator_char c = false.
Proof.
  unfold operator_kind, operator_char.
  destruct (Ascii.eqb c "+"); [discriminate |].
  destruct (Ascii.eqb c "-"); [discriminate |].
  destruct (Ascii.eqb c "*"); [discriminate |].
  destruct (Ascii.eqb c "/"); [discriminate | reflexivity].
Qed.

(** X3: what [lex] does with a first character that is no digit: a blank
    is dropped, an operator character becomes its token before the tokens
    of the rest, any other character ends the scan with the error flag and
    no token. *)
Theorem scan_first_character (c : ascii) (line : string) :
  isdigit c = true
  \/ scan (String c line) =
     if isspace c then scan line
     else match operator_kind c with
          | Some k => (tok k (String c EmptyString) :: (scan line).1, (scan line).2)
          | None => ([], true)
          end.
Proof.
  destruct (isdigit c) eqn:Hd; [left; reflexivity | right].
  destruct (isspace c) eqn:Hs; [apply scan_isspace, Hs |].
  destruct (operator_kind c) as [k |] eqn:Hk; [apply scan_operator, Hk |].
  apply scan_unexpected. repeat split; auto using operator_kind_None.
Qed.

(** X4: a word of the grammar
    [digit+ ('.' digit+)? ('e' ('+'|'-')? digit+)?] is read back as one
    [number] token with the word for its lexeme: at the end of the line,
    and before any character that is no digit, ['.'] or ['e'] -- and that
    character is then dropped, whatever it is. *)
Theorem scan_number_literal (w : string) :
  numeric_grammar w ->
  scan w = ([tok TokenType.number w; eof_token], false)
  /\ forall c rest,
       continues_number c = false ->
       scan (String.append w (String c rest)) =
       (tok TokenType.number w :: (scan rest).1, (scan rest).2).
Proof.
  intros Hw. split; [apply scan_number_end, Hw |].
  intros c rest Hc. apply scan_number_word; assumption.
Qed.

Lemma numeric_grammar_sample : numeric_grammar "12.5e-3".
Proof.
  exists (list_ascii_of_string "12"), (list_ascii_of_string ".5"),
    (list_ascii_of_string "e-3").
  split; [reflexivity |]. split; [split; [discriminate | repeat constructor] |].
  split; right.
  - exists (list_ascii_of_string "5"). split; [reflexivity |].
    split; [discriminate | repeat constructor].
  - exists (list_ascii_of_string "-"), (list_ascii_of_string "3").
    split; [reflexivity |]. split; [right; right; reflexivity |].
    split; [discriminate | repeat constructor].
Defined.

Lemma scan_number_literal_witness :
  scan "12.5e-3" = ([tok TokenType.number "12.5e-3"; eof_token], false)
  /\ scan "12.5e-3+4" =
     ([tok TokenType.number "12.5e-3"; tok TokenType.number "4"; eof_token], false).
Proof.
  destruct (scan_number_literal "12.5e-3" numeric_grammar_sample) as [H1 H2].
  split; [exact H1 |]. exact (H2 "+"%char "4"%string eq_refl).
Defined.

(** X5: a line of blanks only scans to the single [eof] token, and the
    turn on it is lost in [previous], which reads [tokens_] at index
    [uint32 (0 - 1)]. *)
Theorem blank_line_reads_before_tokens
    (strtod : string -> float) (line : string) (fuel : nat) :
  Forall (fun c => isspace c = true) (list_ascii_of_string line) ->
  scan line = ([eof_token], false)
  /\ main_turn strtod (1 + fuel) line = Crashed (OutOfRange 4294967295).
Proof.
  intros Hblank. pose proof (scan_blank line Hblank) as Hscan.
  split; [exact Hscan |].
  unfold scan, scanned in Hscan. injection Hscan as Htokens Hflag.
  unfold main_turn. rewrite Hflag, Htokens.
  rewrite (parse_more_fuel strtod 1 (1 + fuel)) by (first [lia | discriminate]).
  reflexivity.
Qed.

Lemma blank_line_witness :
  scan "   " = ([eof_token], false)
  /\ main_turn strtod_digits 1 "   " = Crashed (OutOfRange 4294967295).
Proof.
  apply (blank_line_reads_before_tokens strtod_digits "   " 0).
  repeat constructor.
Defined.

(** X6: started on a digit, [lexNumber] leaves the iterator after that
    digit and not beyond the end of the source. *)
Theorem lexNumber_within_source (src : list ascii) (it : nat) :
  isdigit (Tokenizer.deref src it) = true ->
  (it < Tokenizer.lexNumber src it <= length src)%nat.
Proof. intros Hd. destruct (lexNumber_spec src it Hd) as (H1 & H2 & _). lia. Qed.

Lemma lexNumber_within_source_witness :
  (2 < Tokenizer.lexNumber (list_ascii_of_string "1+2e") 2 <= 4)%nat.
Proof.
  apply (lexNumber_within_source (list_ascii_of_string "1+2e") 2). reflexivity.
Defined.

Lemma lex_for_token_count k src it tk :
  (length (Tokenizer.tokens_ (Tokenizer.lex_for k src it tk))
   <= length (Tokenizer.tokens_ tk) + (length src - it) + 1)%nat.
Proof.
  revert it tk. induction k as [| k IH]; intros it tk.
  - simpl. rewrite length_app. simpl. lia.
  - rewrite lex_for_S. destruct (it <? length src)%nat eqn:Hlt.
    2: { simpl. rewrite length_app. simpl. lia. }
    apply Nat.ltb_lt in Hlt. cbv zeta.
    destruct (isspace _); [etransitivity; [apply IH | lia] |].
    destruct (isdigit _) eqn:Hd.
    { destruct (lexNumber_spec src it Hd) as (Hgt & _).
      etransitivity; [apply IH |]. simpl. rewrite length_app. simpl. lia. }
    repeat (destruct (Ascii.eqb _ _);
            [etransitivity; [apply IH |]; simpl; rewrite length_app; simpl; lia |]).
    simpl. lia.
Qed.

(** X7: [lex] makes at most one token per character, and [eof]. *)
Theorem lex_token_count (line : string) :
  (length (tokens_of line) <= String.length line + 1)%nat.
Proof.
  unfold tokens_of, Tokenizer.lex. etransitivity; [apply lex_for_token_count |].
  simpl. rewrite Nat.sub_0_r.
  assert (H : length (list_ascii_of_string line) = String.length line).
  { induction line as [| c line IH]; simpl; [reflexivity | rewrite IH; reflexivity]. }
  rewrite H. lia.
Qed.

(** * Further properties of the parser *)

Section ParserExtras.

Variable strtod : string -> float.

Lemma cursor_ok_new T :
  (exists first rest, T = first :: rest /\ not_eof first) ->
  (exists j t, T !! j = Some t /\ type_ t = TokenType.eof) ->
  cursor_ok T (PrattParser.new T).
Proof.
  intros (first & rest & -> & Hfirst) (j & t & Hj & Heof).
  split; [reflexivity |]. split; [reflexivity |]. exists 0%nat.
  split; [reflexivity |]. split; [constructor |].
  split; [exists j, t; split; [lia | auto] |].
  intros _. exists first. auto.
Qed.

(** X8: on at most 2^32 tokens that start with a token other than [eof]
    and hold an [eof] token, the parser never indexes [tokens_] out of
    range, whatever else it runs into. *)
Theorem parse_stays_in_range (fuel : nat) (T : list Token) (i : Z) :
  Z.of_nat (length T) <= 2 ^ 32 ->
  (exists first rest, T = first :: rest /\ not_eof first) ->
  (exists j t, T !! j = Some t /\ type_ t = TokenType.eof) ->
  PrattParser.parse strtod fuel (PrattParser.new T) <>
  PrattParser.Faults (OutOfRange i).
Proof.
  intros Hfits Hfirst Heof Hfault.
  pose proof (proj1 (parser_in_range strtod T Hfits fuel) TERM (PrattParser.new T)
                (cursor_ok_new T Hfirst Heof)) as H.
  unfold PrattParser.parse, PrattParser.expression in Hfault.
  rewrite Hfault in H. exact H.
Qed.

(** X9: on such tokens, when [parse] returns and has flagged no error, the
    cursor stands on an [eof] token and has passed every token before it:
    nothing before the first [eof] is left unread. *)
Theorem parse_success_stops_at_eof (fuel : nat) (T : list Token)
    (e : Expr) (p' : PrattParser.t) :
  Z.of_nat (length T) <= 2 ^ 32 ->
  (exists first rest, T = first :: rest /\ not_eof first) ->
  (exists j t, T !! j = Some t /\ type_ t = TokenType.eof) ->
  PrattParser.parse strtod fuel (PrattParser.new T) = PrattParser.Returns e p' ->
  PrattParser.anErrorOccurred p' = false ->
  exists (c : nat) (t : Token),
    PrattParser.current_ p' = Z.of_nat c
    /\ T !! c = Some t /\ type_ t = TokenType.eof
    /\ Forall not_eof (take c T).
Proof.
  intros Hfits Hfirst Heof Hparse Hquiet.
  pose proof (proj1 (parser_in_range strtod T Hfits fuel) TERM (PrattParser.new T)
                (cursor_ok_new T Hfirst Heof)) as Hin.
  unfold PrattParser.parse, PrattParser.expression in Hparse.
  rewrite Hparse in Hin. destruct Hin as [(_ & HT & c & Hc & Hbefore & _) _].
  destruct (proj1 (while_infix_stops strtod fuel) TERM (PrattParser.new T) e p'
              eq_refl Hparse)
    as [[_ Herr] | (t & Hpeek & Hlow)]; [congruence |].
  exists c, t. split; [exact Hc |].
  assert (Ht : T !! c = Some t).
  { unfold PrattParser.peek, PrattParser.at_index in Hpeek. rewrite Hc, HT in Hpeek.
    destruct (_ <? _); [| discriminate]. rewrite Nat2Z.id in Hpeek.
    destruct (T !! c); [congruence | discriminate]. }
  split; [exact Ht |]. split; [| exact Hbefore].
  destruct (type_ t); simpl in Hlow; unfold TERM, FACTOR, PRIMARY in Hlow;
    first [reflexivity | lia].
Qed.

End ParserExtras.

Lemma parse_extras_sample :
  Z.of_nat (length (tokens_of "8 - 3")) <= 2 ^ 32
  /\ (exists first rest, tokens_of "8 - 3" = first :: rest /\ not_eof first)
  /\ (exists j t, tokens_of "8 - 3" !! j = Some t /\ type_ t = TokenType.eof).
Proof.
  split; [vm_compute; discriminate |]. split.
  - eexists _, _. split; [reflexivity | discriminate].
  - exists 3%nat, eof_token. split; reflexivity.
Defined.

Lemma parse_stays_in_range_witness :
  PrattParser.parse strtod_digits 8 (PrattParser.new (tokens_of "8 - 3")) <>
  PrattParser.Faults (OutOfRange 4294967295).
Proof.
  destruct parse_extras_sample as (H1 & H2 & H3).
  exact (parse_stays_in_range strtod_digits 8 (tokens_of "8 - 3") 4294967295 H1 H2 H3).
Defined.

Lemma parse_success_stops_at_eof_witness :
  exists (c : nat) (t : Token),
    3 = Z.of_nat c
    /\ tokens_of "8 - 3" !! c = Some t /\ type_ t = TokenType.eof
    /\ Forall not_eof (take c (tokens_of "8 - 3")).
Proof.
  destruct parse_extras_sample as (H1 & H2 & H3).
  eapply (parse_success_stops_at_eof strtod_digits 8 (tokens_of "8 - 3") _
            {| PrattParser.rules_ := PrattParser.registerAllRules ∅;
               PrattParser.current_ := 3;
               PrattParser.tokens_ := tokens_of "8 - 3";
               PrattParser.base := Erronable.new |} H1 H2 H3).
  - vm_compute. reflexivity.
  - reflexivity.
Defined.

Section GrammarExtras.

Variable strtod : string -> float.

Lemma scan_dangling_line w k :
  numeric_grammar w -> binary_operator k = true ->
  scan (dangling_line w k) = (dangling_tokens w k, false).
Proof.
  intros Hw Hk. unfold dangling_line, dangling_tokens.
  rewrite (scan_number_word w " " _ Hw eq_refl).
  rewrite (scan_operator (operator_char_of k) k)
    by (destruct k; try discriminate Hk; reflexivity).
  destruct k; try discriminate Hk; reflexivity.
Qed.

Lemma main_turn_scanned fuel line tokens :
  scan line = (tokens, false) ->
  main_turn strtod fuel line =
  match PrattParser.parse strtod fuel (PrattParser.new tokens) with
  | PrattParser.Returns ast parser =>
      if PrattParser.anErrorOccurred parser then ParserError parser
      else let '(value, evaluator) := Evaluator.eval (Evaluator.new ast) in
           Printed value evaluator
  | PrattParser.Faults f => Crashed f
  | PrattParser.OutOfFuel => Unfinished
  end.
Proof.
  intros Hscan. unfold scan, scanned in Hscan. injection Hscan as Htokens Hflag.
  unfold main_turn. rewrite Hflag, Htokens. reflexivity.
Qed.

Lemma dangling_sign_recurses w k fuel :
  additive k = true ->
  PrattParser.parse strtod fuel (PrattParser.new (dangling_tokens w k)) =
  PrattParser.OutOfFuel.
Proof.
  intros Hk. set (T := dangling_tokens w k).
  assert (Hfits : Z.of_nat (length T) < 2 ^ 32) by (vm_compute; reflexivity).
  unfold PrattParser.parse, PrattParser.expression.
  change (PrattParser.new T) with (parser_at T 0).
  destruct fuel as [| fuel]; [reflexivity |].
  rewrite (parsePrecedence_at_number strtod T Hfits fuel TERM 0 w
             [operator_token k; eof_token] eq_refl).
  destruct fuel as [| fuel]; [reflexivity |].
  rewrite (while_infix_at_binary strtod T Hfits fuel TERM _ 1 (operator_token k)
             [eof_token] eq_refl)
    by (rewrite type_operator_token;
        first [apply additive_binary, Hk
              | rewrite (additive_precedence _ Hk); unfold TERM; lia]).
  unfold PrattParser.bind.
  rewrite (prefix_at_end_recurses strtod fuel _ (parser_at T 2) eof_token
             (operator_token k)); [reflexivity | reflexivity | | reflexivity | |].
  - apply (peek_at T 2 eof_token []). reflexivity.
  - apply (previous_at T Hfits 1 (operator_token k) [eof_token]). reflexivity.
  - rewrite type_operator_token. destruct k; try discriminate Hk; reflexivity.
Qed.

(** X10: a number followed by a dangling operator.  At the [eof] token
    that follows the operator, [advance] does not move and hands the
    operator out again as the token to parse the right operand from.  After
    [+] or [-] the parser therefore never returns: [unary] and
    [parsePrecedence] call each other without end.  After [*] or [/], which
    have no prefix action, the turn ends with the error flag of the parser
    raised, its cursor still on [eof], and no value printed. *)
Theorem dangling_operator (w : string) (k : TokenType.t) (fuel : nat) :
  numeric_grammar w -> binary_operator k = true ->
  PrattParser.advance (parser_at (dangling_tokens w k) 2) =
    PrattParser.Returns (operator_token k) (parser_at (dangling_tokens w k) 2)
  /\ if additive k
     then main_turn strtod (3 + fuel) (dangling_line w k) = Unfinished
     else exists parser,
         main_turn strtod (3 + fuel) (dangling_line w k) = ParserError parser
         /\ PrattParser.anErrorOccurred parser = true
         /\ PrattParser.current_ parser = 2
         /\ PrattParser.tokens_ parser = dangling_tokens w k.
Proof.
  intros Hw Hk. split; [reflexivity |].
  rewrite (main_turn_scanned _ _ _ (scan_dangling_line w k Hw Hk)).
  destruct (additive k) eqn:Hadd.
  - rewrite dangling_sign_recurses by exact Hadd. reflexivity.
  - rewrite (parse_more_fuel strtod 3 (3 + fuel))
      by (first [lia | destruct k; try discriminate Hk; try discriminate Hadd;
                       discriminate]).
    destruct k; try discriminate Hk; try discriminate Hadd;
      eexists; (split; [reflexivity |]); repeat split.
Qed.

(** X11: the parser is correct on the grammar of sums of products of
    signed numbers: on the tokens of a well-formed sum followed by [eof],
    with enough fuel, [parse] returns the tree of the sum and flags no
    error. *)
Theorem parse_sum_tree (s : Sum) :
  sum_ok (fun _ => True) s ->
  Z.of_nat (length (sum_tokens s)) + 1 < 2 ^ 32 ->
  exists fuel0, forall fuel, (fuel0 <= fuel)%nat ->
    parses_to strtod fuel (sum_tokens s ++ [eof_token]) (sum_tree strtod s).
Proof.
  intros Hok Hfits. set (T := sum_tokens s ++ [eof_token]).
  assert (HT : Z.of_nat (length T) < 2 ^ 32).
  { subst T. rewrite length_app. simpl. lia. }
  destruct (parses_sum strtod (fun _ => True) T HT s 0 [eof_token] Hok eq_refl)
    as [fuel0 Hfuel].
  { exists eof_token, []. split; reflexivity. }
  exists fuel0. intros fuel Hle. unfold parses_to, PrattParser.parse,
    PrattParser.expression.
  change (PrattParser.new T) with (parser_at T 0).
  rewrite (Hfuel fuel Hle). split; reflexivity.
Qed.

Lemma sum_ok_weaken (L L' : string -> Prop) s :
  (forall w, L w -> L' w) -> sum_ok L s -> sum_ok L' s.
Proof.
  intros HL. destruct s as [[o items] sums].
  assert (Hop : forall o, operand_ok L o -> operand_ok L' o)
    by (intros o' [H1 H2]; split; auto).
  assert (Hprod : forall p, product_ok L p -> product_ok L' p).
  { intros [o' items'] [H1 H2]. split; [apply Hop, H1 |].
    eapply Forall_impl; [exact H2 |]. intros [k x] [Hk Hx]. auto. }
  intros [H1 H2]. split; [apply Hprod, H1 |].
  eapply Forall_impl; [exact H2 |]. intros [k x] [Hk Hx]. auto.
Qed.

Lemma scan_write_sum_line (s : Sum) :
  sum_ok numeric_grammar s ->
  scan (write_sum s EmptyString) = (sum_tokens s ++ [eof_token], false).
Proof. intros Hok. apply (scan_write_sum s EmptyString Hok). Qed.

(** X12: [lex] reads back what was written: the line of a sum whose
    literals are words of the grammar, each token followed by one blank,
    scans to the tokens of the sum and [eof], without error. *)
Theorem lex_reads_back_written_sum (s : Sum) :
  sum_ok numeric_grammar s ->
  scan (write_sum s EmptyString) = (sum_tokens s ++ [eof_token], false).
Proof. apply scan_write_sum_line. Qed.

(** X13: the whole turn on a written sum: with enough fuel the program
    prints the value of the sum, computed with [strtod] on the literals and
    the arithmetic of [double], prefix signs first, then [*] and [/] from
    the left, then [+] and [-] from the left. *)
Theorem turn_on_written_sum (s : Sum) :
  sum_ok numeric_grammar s ->
  Z.of_nat (length (sum_tokens s)) + 1 < 2 ^ 32 ->
  exists fuel0, forall fuel, (fuel0 <= fuel)%nat ->
    main_turn strtod fuel (write_sum s EmptyString) =
    Printed (sum_value strtod s) (quiet (sum_tree strtod s)).
Proof.
  intros Hok Hfits.
  set (T := sum_tokens s ++ [eof_token]).
  assert (HT : Z.of_nat (length T) < 2 ^ 32).
  { subst T. rewrite length_app. simpl. lia. }
  destruct (parses_sum strtod numeric_grammar T HT s 0 [eof_token] Hok eq_refl)
    as [fuel0 Hfuel].
  { exists eof_token, []. split; reflexivity. }
  exists fuel0. intros fuel Hle.
  rewrite (main_turn_scanned fuel _ _ (scan_write_sum_line s Hok)).
  unfold PrattParser.parse, PrattParser.expression.
  change (PrattParser.new (sum_tokens s ++ [eof_token])) with (parser_at T 0).
  rewrite (Hfuel fuel Hle).
  change (PrattParser.anErrorOccurred (parser_at T (0 + length (sum_tokens s))))
    with false. cbv iota.
  unfold Evaluator.eval. cbn [Evaluator.ast_ Evaluator.base Evaluator.new].
  rewrite (evaluateExpression_value _ _ _
             (value_of_sum_tree strtod numeric_grammar s Hok)).
  reflexivity.
Qed.

End GrammarExtras.

Lemma digit_numeric_grammar (c : ascii) :
  isdigit c = true -> numeric_grammar (String c EmptyString).
Proof.
  intros Hc. exists [c], [], []. split; [reflexivity |].
  split; [split; [discriminate | repeat constructor; exact Hc] | auto].
Defined.

Lemma sample_sum_ok : sum_ok numeric_grammar sample_sum.
Proof.
  repeat split; repeat constructor; apply digit_numeric_grammar; reflexivity.
Defined.

Lemma dangling_operator_witness :
  PrattParser.advance (parser_at (dangling_tokens "7" TokenType.plus) 2) =
    PrattParser.Returns (tok TokenType.plus "+")
      (parser_at (dangling_tokens "7" TokenType.plus) 2)
  /\ main_turn strtod_digits 3 "7 +" = Unfinished.
Proof.
  exact (dangling_operator strtod_digits "7" TokenType.plus 0
           (digit_numeric_grammar "7" eq_refl) eq_refl).
Defined.

Lemma parse_sum_tree_witness :
  exists fuel0, forall fuel, (fuel0 <= fuel)%nat ->
    parses_to strtod_digits fuel (sum_tokens sample_sum ++ [eof_token])
      (sum_tree strtod_digits sample_sum).
Proof.
  apply (parse_sum_tree strtod_digits sample_sum).
  - exact (sum_ok_weaken numeric_grammar (fun _ => True) sample_sum
             (fun _ _ => I) sample_sum_ok).
  - vm_compute. reflexivity.
Defined.

Lemma lex_reads_back_written_sum_witness :
  scan "- 2 * 3 + 4 / 8 " = (sum_tokens sample_sum ++ [eof_token], false).
Proof. exact (lex_reads_back_written_sum sample_sum sample_sum_ok). Defined.

Lemma turn_on_written_sum_witness :
  exists fuel0, forall fuel, (fuel0 <= fuel)%nat ->
    main_turn strtod_digits fuel "- 2 * 3 + 4 / 8 " =
    Printed (-5.5)%float (quiet (sum_tree strtod_digits sample_sum)).
Proof.
  apply (turn_on_written_sum strtod_digits sample_sum sample_sum_ok).
  vm_compute. reflexivity.
Defined.

(** * Further properties of the evaluator *)

(** X14: for every tree, [eval] raises its error flag exactly when some node
    carries an operator that is not of its kind; null children give NaN
    without an error. *)
Theorem eval_flags_exactly_invalid_operators (ast : Expr) :
  Evaluator.anErrorOccurred (Evaluator.eval (Evaluator.new ast)).2 =
  negb (operators_valid ast).
Proof.
  unfold Evaluator.eval, Evaluator.anErrorOccurred, Erronable.anErrorOccurred.
  cbn [Evaluator.ast_ Evaluator.base Evaluator.new].
  pose proof (evaluateExpression_flag ast Erronable.new) as H.
  destruct (Evaluator.evaluateExpression ast Erronable.new) as [v b].
  exact H.
Qed.

(** X15: two prefix minus signs cancel: for every operand tree, also one with
    null or invalid nodes, [- - e] evaluates to the value and the error
    state of [e]. *)
Theorem double_negation_cancels (e : Expr) (b : Erronable.t) :
  Evaluator.evaluateExpression
    (UnaryExpr TokenType.minus (UnaryExpr TokenType.minus e)) b =
  Evaluator.evaluateExpression e b.
Proof.
  cbn [Evaluator.evaluateExpression].
  destruct (Evaluator.evaluateExpression e b) as [v b'].
  rewrite opp_involutive. reflexivity.
Qed.

Lemma Prim2SF_nan : FloatOps.Prim2SF nan = SpecFloat.S754_nan.
Proof. reflexivity. Qed.

Lemma nan_absorbs (x : float) :
  (nan + x = nan /\ x + nan = nan /\ nan - x = nan /\ x - nan = nan
   /\ nan * x = nan /\ x * nan = nan /\ nan / x = nan /\ x / nan = nan
   /\ - nan = nan)%float.
Proof.
  repeat split; apply FloatAxioms.Prim2SF_inj;
    rewrite ?FloatAxioms.add_spec, ?FloatAxioms.sub_spec, ?FloatAxioms.mul_spec,
      ?FloatAxioms.div_spec, ?FloatAxioms.opp_spec, Prim2SF_nan;
    try reflexivity; destruct (FloatOps.Prim2SF x) as [[] | [] | | [] m e]; reflexivity.
Qed.

Lemma evaluateExpression_nan e b :
  value_of e = None -> (Evaluator.evaluateExpression e b).1 = nan.
Proof.
  revert b. induction e as [| op l IHl r IHr | op r IHr | x]; intros b H; simpl in H.
  - reflexivity.
  - simpl. specialize (IHl b).
    destruct (Evaluator.evaluateExpression l b) as [lhs b1]. specialize (IHr b1).
    destruct (Evaluator.evaluateExpression r b1) as [rhs b2]. simpl in IHl, IHr.
    destruct (value_of l) as [a |].
    + destruct (value_of r) as [c |]; [destruct op; try discriminate; reflexivity |].
      rewrite (IHr eq_refl).
      destruct op; simpl; try reflexivity; apply (nan_absorbs lhs).
    + rewrite (IHl eq_refl).
      destruct op; simpl; try reflexivity; apply (nan_absorbs rhs).
  - simpl. specialize (IHr b).
    destruct (Evaluator.evaluateExpression r b) as [rhs b1]. simpl in IHr.
    destruct op; try reflexivity.
    + destruct (value_of r); [discriminate |]. rewrite (IHr eq_refl).
      apply (nan_absorbs nan).
    + simpl. apply IHr, H.
  - discriminate.
Qed.

(** X18: the evaluator computes the arithmetic value of a tree of the data
    model, and NaN for every other tree: one with a null pointer or an
    operator that is not of its kind anywhere in it. *)
Theorem eval_value_or_nan (ast : Expr) :
  (Evaluator.eval (Evaluator.new ast)).1 = default nan (value_of ast).
Proof.
  unfold Evaluator.eval. cbn [Evaluator.ast_ Evaluator.base Evaluator.new].
  destruct (value_of ast) as [v |] eqn:Hv.
  - rewrite (evaluateExpression_value ast v _ Hv). reflexivity.
  - pose proof (evaluateExpression_nan ast Erronable.new Hv) as H.
    destruct (Evaluator.evaluateExpression ast Erronable.new) as [v b]. exact H.
Qed.

(** * Further properties of the diagnostics *)

(** X16: every diagnostic of a parse that returns is the
    [ExpectExpression] of [parsePrecedence]: the branch of [primary] that
    emits [ExpectNumberLiteral] is never taken, since [primary] is only
    called for a [number] token. *)
Theorem parser_never_expects_number_literal
    (strtod : string -> float) (fuel : nat) (tokens : list Token)
    (e : Expr) (p' : PrattParser.t) :
  PrattParser.parse strtod fuel (PrattParser.new tokens) =
    PrattParser.Returns e p' ->
  ExpectNumberLiteral ∉ Erronable.emitted_ (PrattParser.base p').
Proof.
  intros H. apply (proj1 (parser_trees strtod fuel)) in H; [| reflexivity].
  destruct H as ((_ & _ & _ & ds & -> & Hds) & _). simpl.
  intros Hin. rewrite Forall_forall in Hds.
  destruct (Hds _ Hin) as [lexeme Hl]. discriminate.
Qed.

Lemma parser_never_expects_number_literal_witness :
  ExpectNumberLiteral ∉ [ExpectExpression "*"].
Proof.
  eapply (parser_never_expects_number_literal strtod_digits 8 (tokens_of "2 * *")
            _ {| PrattParser.rules_ := PrattParser.registerAllRules ∅;
                 PrattParser.current_ := 3;
                 PrattParser.tokens_ := tokens_of "2 * *";
                 PrattParser.base :=
                   {| Erronable.hadError_ := true;
                      Erronable.emitted_ := [ExpectExpression "*"] |} |}).
  vm_compute. reflexivity.
Defined.

(** X19: a parse never changes the rule table or the tokens: when [parse]
    returns, every kind of token still has the rule the constructor
    registered for it, so [getRule] has added no entry. *)
Theorem parse_keeps_rule_table (strtod : string -> float) (fuel : nat)
    (tokens : list Token) (e : Expr) (p' : PrattParser.t) :
  PrattParser.parse strtod fuel (PrattParser.new tokens) =
    PrattParser.Returns e p' ->
  PrattParser.rules_ p' = PrattParser.rules_ (PrattParser.new tokens)
  /\ PrattParser.tokens_ p' = tokens
  /\ forall k, PrattParser.rules_ p' !! k = Some (rule_table k).
Proof.
  intros H. apply (proj1 (parser_trees strtod fuel)) in H; [| reflexivity].
  destruct H as ((Hr & Ht & _) & _). unfold rules_registered in Hr.
  split; [exact Hr |]. split; [exact Ht |].
  intros k. rewrite Hr. apply registerAllRules_lookup.
Qed.

Lemma parse_keeps_rule_table_witness :
  PrattParser.registerAllRules ∅ =
    PrattParser.rules_ (PrattParser.new (tokens_of "* 2"))
  /\ tokens_of "* 2" = tokens_of "* 2"
  /\ forall k, PrattParser.registerAllRules ∅ !! k = Some (rule_table k).
Proof.
  eapply (parse_keeps_rule_table strtod_digits 8 (tokens_of "* 2") _
            {| PrattParser.rules_ := PrattParser.registerAllRules ∅;
               PrattParser.current_ := 1;
               PrattParser.tokens_ := tokens_of "* 2";
               PrattParser.base :=
                 {| Erronable.hadError_ := true;
                    Erronable.emitted_ := [ExpectExpression "*"] |} |}).
  vm_compute. reflexivity.
Defined.

(** X17: a line of blanks, digits and operator characters only is never
    a lexical error. *)
Theorem lex_accepts_alphabet (line : string) :
  Forall (fun c => isspace c || isdigit c || operator_char c = true)
    (list_ascii_of_string line) ->
  scan line = (tokens_of line, false).
Proof.
  intros Halpha. unfold scan, scanned, tokens_of. f_equal.
  unfold Tokenizer.lex.
  change (Tokenizer.source_ (Tokenizer.new line)) with line.
  pose proof (lex_for_outcome (length (list_ascii_of_string line))
                (list_ascii_of_string line) 0 (Tokenizer.new line) eq_refl) as H.
  unfold lex_outcome in H.
  destruct (Tokenizer.anErrorOccurred
              (Tokenizer.lex_for (length (list_ascii_of_string line))
                 (list_ascii_of_string line) 0 (Tokenizer.new line)));
    [| reflexivity].
  destruct H as (_ & pos & c & _ & Hpos & Hs & Hd & Ho).
  rewrite Forall_lookup in Halpha. specialize (Halpha pos c Hpos).
  simpl in Halpha. rewrite Hs, Hd, Ho in Halpha. discriminate.
Qed.

Lemma lex_accepts_alphabet_witness :
  scan "2+ *7" = (tokens_of "2+ *7", false).
Proof. apply (lex_accepts_alphabet "2+ *7"). repeat constructor. Defined.
